(** * flyingsphere: the frame loop of the game, and its 2D-canvas variant

    A shallow embedding of [src/game.js] (the three.js game) and of the
    second, 2D-canvas script, with the properties of the simulation loop:
    gravity integration, surge on input, obstacle spawning, movement,
    scoring and despawning, collision detection and the boundary clamp.

    Numbers.  A JavaScript number is modelled as an exact rational [Q]:
    the arithmetic of the code is kept operation by operation, while the
    rounding of IEEE doubles, NaN and the infinities are outside the
    model.  What three.js keeps in single precision, the vertices of a
    geometry, is rounded to single precision ([fround]); the properties
    that depend on it are stated with a margin that covers the rounding of
    the doubles as well.  Counters that only count ([score]) are [nat].

    Environment.  What a frame reads from outside the program is an
    argument of the function that reads it: the clock delta of
    [clock.getDelta()] and the two [Math.random()] draws of
    [createObstacle].  The matrix algebra of three.js (composing a world
    matrix, transforming a box by it) is a parameter of the development.
    An object of the scene graph is known by its identity: the scene holds
    identities, the state holds the objects' data. *)

From Stdlib Require Import QArith Qround Qpower Qabs Lqa ZArith NArith Lia Ascii String.
From stdpp Require Import base list pretty.

Local Open Scope Q_scope.

(** ** JavaScript comparisons on numbers *)

Definition Qltb (a b : Q) : bool := negb (Qle_bool b a).
Definition Qgtb (a b : Q) : bool := Qltb b a.
Definition Qleb (a b : Q) : bool := Qle_bool a b.
Definition Qgeb (a b : Q) : bool := Qle_bool b a.

Notation "a <? b" := (Qltb a b) : Q_scope.
Notation "a >? b" := (Qgtb a b) : Q_scope.
Notation "a <=? b" := (Qleb a b) : Q_scope.
Notation "a >=? b" := (Qgeb a b) : Q_scope.

(** ** The part of three.js the game logic reads *)

Record Vector3 := Vec3 { x_ : Q; y_ : Q; z_ : Q }.

Record Box3 := MkBox3 { min : Vector3; max : Vector3 }.

(** [Box3.intersectsBox]: the six splitting planes. *)
Definition intersectsBox (this box : Box3) : bool :=
  (x_ (max box) >=? x_ (min this)) && (x_ (min box) <=? x_ (max this)) &&
  (y_ (max box) >=? y_ (min this)) && (y_ (min box) <=? y_ (max this)) &&
  (z_ (max box) >=? z_ (min this)) && (z_ (min box) <=? z_ (max this)).

(** [Math.fround], the rounding of a number to single precision that
    storing it in a [Float32Array] makes: to the nearest number with a
    24-bit significand, ties to the even one, the spacing below the
    exponent -126 being that of the subnormals.  (A magnitude of 2^128
    and more becomes an infinity, which [Q] does not have.) *)
Definition roundHalfEven (x : Q) : Z :=
  let n := Qfloor x in
  match Qcompare (x - inject_Z n) (1 # 2) with
  | Lt => n
  | Gt => (n + 1)%Z
  | Eq => if Z.even n then n else (n + 1)%Z
  end.

(** The binary exponent of a number other than 0: the [e] with
    [2^e <= |x| < 2^(e+1)]. *)
Definition exponent (x : Q) : Z :=
  let e := (Z.log2 (Z.abs (Qnum x)) - Z.log2 (Z.pos (Qden x)))%Z in
  if Qle_bool (2 ^ e) (Qabs x) then e else (e - 1)%Z.

Definition fround (x : Q) : Q :=
  if Qeq_bool x 0 then 0
  else
    let e := Z.max (exponent x) (-126) in
    let ulp := 2 ^ (e - 23) in
    inject_Z (roundHalfEven (x / ulp)) * ulp.

(** The bounding box [computeBoundingBox] finds for a [BoxGeometry] of
    the given size, and for a [SphereGeometry]: both are centred at the
    origin, and the tessellated sphere reaches its radius on each axis.
    The box is read off the vertices, which the geometry keeps in a
    [Float32Array]: the half extents are rounded to single precision. *)
Definition boxGeometryBox (width height depth : Q) : Box3 :=
  let widthHalf := fround (width / 2) in
  let heightHalf := fround (height / 2) in
  let depthHalf := fround (depth / 2) in
  MkBox3 (Vec3 (- widthHalf) (- heightHalf) (- depthHalf))
         (Vec3 widthHalf heightHalf depthHalf).

Definition sphereGeometryBox (radius : Q) : Box3 :=
  let r := fround radius in
  MkBox3 (Vec3 (- r) (- r) (- r)) (Vec3 r r r).

(** The margin within which the face of a solid is where the height
    given to its geometry says: one millionth of a world unit.  The
    rounding of a half extent of at most 8 to single precision moves a
    face by less than half of it, and the rounding of the doubles by far
    less. *)
Definition edgeTolerance : Q := 1 # 1000000.

(** A point of a box ([Box3.containsPoint], faces included), and a box
    that has points ([Box3.isEmpty] negated). *)
Definition containsPoint (b : Box3) (p : Vector3) : Prop :=
  x_ (min b) <= x_ p <= x_ (max b) /\
  y_ (min b) <= y_ p <= y_ (max b) /\
  z_ (min b) <= z_ p <= z_ (max b).

Definition nonEmpty (b : Box3) : Prop :=
  x_ (min b) <= x_ (max b) /\ y_ (min b) <= y_ (max b) /\ z_ (min b) <= z_ (max b).

(** The identity of an object added to the scene: the two lights, the
    seed, and the obstacle meshes in the order [new THREE.Mesh] built them. *)
Inductive ObjectId :=
| AmbientLight
| DirectionalLight
| Seed
| ObstacleMesh (n : nat).

#[global] Instance ObjectId_eq_dec : EqDecision ObjectId.
Proof. solve_decision. Defined.

(** [scene.remove(object)]: the first occurrence of the object among the
    children is spliced out; [scene.add(object)] pushes it. *)
Fixpoint scene_remove (object : ObjectId) (children : list ObjectId) : list ObjectId :=
  match children with
  | [] => []
  | c :: rest => if decide (c = object) then rest else c :: scene_remove object rest
  end.

Definition scene_add (object : ObjectId) (children : list ObjectId) : list ObjectId :=
  children ++ [object].

(** [THREE.MathUtils.randFloat(low, high)], with the [Math.random()] draw
    [u] it consumes made an argument. *)
Definition randFloat (low high u : Q) : Q := low + u * (high - low).

(** ** Constants of [game.js] *)

Definition aspectRatio : Q := 9 / 16.
Definition viewHeight : Q := 16.
Definition viewWidth : Q := viewHeight * aspectRatio.

Definition seedRadius : Q := 0.5.
Definition gravity : Q := 0.015.
Definition surgeStrength : Q := 0.45.
Definition seedMinY : Q := viewHeight / -2 + seedRadius.
Definition seedMaxY : Q := viewHeight / 2 - seedRadius.

Definition obstacleWidth : Q := 1.5.
Definition obstacleMinGap : Q := 4.0.
Definition obstacleMaxGap : Q := 5.5.
Definition obstacleSpawnX : Q := viewWidth / 2 + obstacleWidth.
Definition obstacleDespawnX : Q := viewWidth / -2 - obstacleWidth.
Definition obstacleSpeed : Q := 3.0.
Definition spawnInterval : Q := 2.0.

(** The text [`Score: ${score}`]. *)
Definition scoreLabel (score : nat) : string := ("Score: " ++ pretty score)%string.

(** The world matrices of three.js: the type of a [Matrix4], the identity
    a new object starts with, the matrix [updateMatrixWorld] composes from
    an object's position and Euler rotation (scale 1, under the untransformed
    scene), and [Box3.applyMatrix4]. *)
Class WorldMatrices := {
  Matrix4 : Type;
  identityMatrix : Matrix4;
  compose : Vector3 -> Vector3 -> Matrix4;
  applyMatrix4 : Box3 -> Matrix4 -> Box3
}.

Section Game.

Context {W : WorldMatrices}.

(** A [THREE.Mesh].  [boundingBox] is its geometry's bounding box, which
    the code computes as soon as the geometry is built (seed and
    obstacles alike), so that the lazy recomputation at the head of the
    collision loop never fires. *)
Record Mesh := MkMesh {
  id : ObjectId;
  position : Vector3;
  rotation : Vector3;
  visible : bool;
  boundingBox : Box3;
  matrixWorld : Matrix4
}.

Definition newMesh (i : ObjectId) (box : Box3) : Mesh :=
  MkMesh i (Vec3 0 0 0) (Vec3 0 0 0) true box identityMatrix.

Definition setPosition (m : Mesh) (p : Vector3) : Mesh :=
  MkMesh (id m) p (rotation m) (visible m) (boundingBox m) (matrixWorld m).

Definition setRotation (m : Mesh) (r : Vector3) : Mesh :=
  MkMesh (id m) (position m) r (visible m) (boundingBox m) (matrixWorld m).

Definition setVisible (m : Mesh) (b : bool) : Mesh :=
  MkMesh (id m) (position m) (rotation m) b (boundingBox m) (matrixWorld m).

Definition updateMatrixWorld (m : Mesh) : Mesh :=
  MkMesh (id m) (position m) (rotation m) (visible m) (boundingBox m)
         (compose (position m) (rotation m)).

Definition setX (p : Vector3) (v : Q) : Vector3 := Vec3 v (y_ p) (z_ p).
Definition setY (p : Vector3) (v : Q) : Vector3 := Vec3 (x_ p) v (z_ p).

(** The box the collision test uses for a mesh: its geometry's box
    carried to world space by the mesh's current world matrix. *)
Definition worldBox (m : Mesh) : Box3 := applyMatrix4 (boundingBox m) (matrixWorld m).

(** An entry of the [obstacles] array. *)
Record Obstacle := MkObstacle {
  top : Mesh;
  bottom : Mesh;
  passed : bool
}.

(** The mutable state of the script: its [let] variables, the objects it
    mutates, the children of the scene (by identity), the number of
    obstacle meshes constructed so far, and the three UI elements. *)
Record State := MkState {
  seed : Mesh;
  seedVelocityY : Q;
  gameStarted : bool;
  gameOver : bool;
  score : nat;
  obstacles : list Obstacle;
  timeSinceLastSpawn : Q;
  scene : list ObjectId;
  meshCount : nat;
  scoreElement : string;
  startMessage : string;
  gameOverMessage : string
}.

Definition set_seed (s : State) (m : Mesh) : State :=
  MkState m (seedVelocityY s) (gameStarted s) (gameOver s) (score s) (obstacles s)
    (timeSinceLastSpawn s) (scene s) (meshCount s) (scoreElement s) (startMessage s)
    (gameOverMessage s).

Definition set_seedVelocityY (s : State) (v : Q) : State :=
  MkState (seed s) v (gameStarted s) (gameOver s) (score s) (obstacles s)
    (timeSinceLastSpawn s) (scene s) (meshCount s) (scoreElement s) (startMessage s)
    (gameOverMessage s).

Definition set_gameStarted (s : State) (b : bool) : State :=
  MkState (seed s) (seedVelocityY s) b (gameOver s) (score s) (obstacles s)
    (timeSinceLastSpawn s) (scene s) (meshCount s) (scoreElement s) (startMessage s)
    (gameOverMessage s).

Definition set_gameOver (s : State) (b : bool) : State :=
  MkState (seed s) (seedVelocityY s) (gameStarted s) b (score s) (obstacles s)
    (timeSinceLastSpawn s) (scene s) (meshCount s) (scoreElement s) (startMessage s)
    (gameOverMessage s).

(** [score = n; scoreElement.textContent = `Score: ${score}`]. *)
Definition set_score (s : State) (n : nat) : State :=
  MkState (seed s) (seedVelocityY s) (gameStarted s) (gameOver s) n (obstacles s)
    (timeSinceLastSpawn s) (scene s) (meshCount s) (scoreLabel n) (startMessage s)
    (gameOverMessage s).

Definition set_obstacles (s : State) (l : list Obstacle) : State :=
  MkState (seed s) (seedVelocityY s) (gameStarted s) (gameOver s) (score s) l
    (timeSinceLastSpawn s) (scene s) (meshCount s) (scoreElement s) (startMessage s)
    (gameOverMessage s).

Definition set_timeSinceLastSpawn (s : State) (t : Q) : State :=
  MkState (seed s) (seedVelocityY s) (gameStarted s) (gameOver s) (score s) (obstacles s)
    t (scene s) (meshCount s) (scoreElement s) (startMessage s) (gameOverMessage s).

Definition set_scene (s : State) (c : list ObjectId) : State :=
  MkState (seed s) (seedVelocityY s) (gameStarted s) (gameOver s) (score s) (obstacles s)
    (timeSinceLastSpawn s) c (meshCount s) (scoreElement s) (startMessage s)
    (gameOverMessage s).

Definition set_meshCount (s : State) (n : nat) : State :=
  MkState (seed s) (seedVelocityY s) (gameStarted s) (gameOver s) (score s) (obstacles s)
    (timeSinceLastSpawn s) (scene s) n (scoreElement s) (startMessage s)
    (gameOverMessage s).

Definition set_startMessage (s : State) (d : string) : State :=
  MkState (seed s) (seedVelocityY s) (gameStarted s) (gameOver s) (score s) (obstacles s)
    (timeSinceLastSpawn s) (scene s) (meshCount s) (scoreElement s) d (gameOverMessage s).

Definition set_gameOverMessage (s : State) (d : string) : State :=
  MkState (seed s) (seedVelocityY s) (gameStarted s) (gameOver s) (score s) (obstacles s)
    (timeSinceLastSpawn s) (scene s) (meshCount s) (scoreElement s) (startMessage s) d.

(** ** The functions of [game.js] *)

(** [createObstacle()], given the two [Math.random()] draws it consumes
    (the first for the gap height, the second for the gap centre). *)
Definition createObstacle (u1 u2 : Q) (s : State) : State :=
  let gapHeight := randFloat obstacleMinGap obstacleMaxGap u1 in
  let gapCenterY :=
    randFloat (viewHeight / -2 + gapHeight / 2 + 1.0)
              (viewHeight / 2 - gapHeight / 2 - 1.0) u2 in
  let topHeight := viewHeight / 2 - (gapCenterY + gapHeight / 2) in
  let bottomHeight := viewHeight / 2 + (gapCenterY - gapHeight / 2) in
  if (topHeight <=? 0) || (bottomHeight <=? 0) then s
  else
    let topObstacle :=
      newMesh (ObstacleMesh (meshCount s)) (boxGeometryBox obstacleWidth topHeight obstacleWidth) in
    let bottomObstacle :=
      newMesh (ObstacleMesh (S (meshCount s))) (boxGeometryBox obstacleWidth bottomHeight obstacleWidth) in
    let topObstacle :=
      setPosition topObstacle
        (Vec3 obstacleSpawnX (gapCenterY + gapHeight / 2 + topHeight / 2) 0) in
    let bottomObstacle :=
      setPosition bottomObstacle
        (Vec3 obstacleSpawnX (gapCenterY - gapHeight / 2 - bottomHeight / 2) 0) in
    let s := set_meshCount s (S (S (meshCount s))) in
    let s := set_scene s (scene_add (id topObstacle) (scene s)) in
    let s := set_scene s (scene_add (id bottomObstacle) (scene s)) in
    set_obstacles s (obstacles s ++ [MkObstacle topObstacle bottomObstacle false]).

(** The [forEach] of [resetGame]: both meshes of every pair leave the scene. *)
Fixpoint removeAllFromScene (l : list Obstacle) (children : list ObjectId) : list ObjectId :=
  match l with
  | [] => children
  | obstacle :: rest =>
      removeAllFromScene rest
        (scene_remove (id (bottom obstacle)) (scene_remove (id (top obstacle)) children))
  end.

Definition resetGame (s : State) : State :=
  let s := set_seed s (setPosition (seed s) (setY (position (seed s)) 0)) in
  let s := set_seedVelocityY s 0 in
  let s := set_seed s (setVisible (seed s) true) in
  let s := set_score s 0 in
  let s := set_gameOver s false in
  let s := set_gameStarted s false in
  let s := set_timeSinceLastSpawn s spawnInterval in
  let s := set_scene s (removeAllFromScene (obstacles s) (scene s)) in
  let s := set_obstacles s [] in
  let s := set_gameOverMessage s "none" in
  set_startMessage s "block".

(** [handleInput()], the listener of both [mousedown] and [touchstart]. *)
Definition handleInput (s : State) : State :=
  if gameOver s then resetGame s
  else
    let s := if negb (gameStarted s)
             then set_startMessage (set_gameStarted s true) "none"
             else s in
    set_seedVelocityY s surgeStrength.

(** The loop of [checkCollisions()] over the obstacles, leaving at the
    first intersection. *)
Fixpoint collides (seedBox : Box3) (l : list Obstacle) : bool :=
  match l with
  | [] => false
  | obstacle :: rest =>
      if intersectsBox seedBox (worldBox (top obstacle)) then true
      else if intersectsBox seedBox (worldBox (bottom obstacle)) then true
      else collides seedBox rest
  end.

Definition checkCollisions (s : State) : bool :=
  let seedBox := worldBox (seed s) in
  collides seedBox (obstacles s).

(** *** The phases of [animate()] *)

(** Seed physics: [seedVelocityY -= gravity; seed.position.y += seedVelocityY],
    then [seed.updateMatrixWorld()]. *)
Definition seedPhysics (s : State) : State :=
  let s := set_seedVelocityY s (seedVelocityY s - gravity) in
  let s := set_seed s (setPosition (seed s)
                         (setY (position (seed s)) (y_ (position (seed s)) + seedVelocityY s))) in
  set_seed s (updateMatrixWorld (seed s)).

(** Boundary checks. *)
Definition boundaryChecks (s : State) : State :=
  if y_ (position (seed s)) <? seedMinY then
    let s := set_seed s (setPosition (seed s) (setY (position (seed s)) seedMinY)) in
    let s := set_seedVelocityY s 0 in
    set_gameOver s true
  else if y_ (position (seed s)) >? seedMaxY then
    let s := set_seed s (setPosition (seed s) (setY (position (seed s)) seedMaxY)) in
    let s := set_seedVelocityY s 0 in
    set_gameOver s true
  else s.

(** Obstacle spawning. *)
Definition obstacleSpawning (deltaTime u1 u2 : Q) (s : State) : State :=
  let s := set_timeSinceLastSpawn s (timeSinceLastSpawn s + deltaTime) in
  if timeSinceLastSpawn s >=? spawnInterval then
    set_timeSinceLastSpawn (createObstacle u1 u2 s) 0
  else s.

(** The three steps the loop takes on a pair.  Movement: both meshes go
    left by [obstacleSpeed * deltaTime] and have their world matrices
    updated. *)
Definition moveLeft (moveAmount : Q) (m : Mesh) : Mesh :=
  setPosition m (setX (position m) (x_ (position m) - moveAmount)).

Definition moved (deltaTime : Q) (obstacle : Obstacle) : Obstacle :=
  let moveAmount := obstacleSpeed * deltaTime in
  MkObstacle (updateMatrixWorld (moveLeft moveAmount (top obstacle)))
             (updateMatrixWorld (moveLeft moveAmount (bottom obstacle)))
             (passed obstacle).

(** Scoring check: [!obstacle.passed && seed.position.x > obstacle.top.position.x]. *)
Definition scoringCheck (seedX : Q) (obstacle : Obstacle) : bool :=
  negb (passed obstacle) && (seedX >? x_ (position (top obstacle))).

Definition markPassed (obstacle : Obstacle) : Obstacle :=
  MkObstacle (top obstacle) (bottom obstacle) true.

(** Cleanup check: [obstacle.top.position.x < obstacleDespawnX]. *)
Definition cleanupCheck (obstacle : Obstacle) : bool :=
  x_ (position (top obstacle)) <? obstacleDespawnX.

(** The body of the backward loop at index [i].  The array holds no
    holes, so the invalid-entry branch is the lookup that finds nothing. *)
Definition loopBody (deltaTime : Q) (i : nat) (s : State) : State :=
  match obstacles s !! i with
  | None => set_obstacles s (delete i (obstacles s))
  | Some obstacle =>
      let obstacle := moved deltaTime obstacle in
      let scores := scoringCheck (x_ (position (seed s))) obstacle in
      let obstacle := if scores then markPassed obstacle else obstacle in
      let s := if scores then set_score s (S (score s)) else s in
      if cleanupCheck obstacle then
        let s := set_scene s (scene_remove (id (top obstacle)) (scene s)) in
        let s := set_scene s (scene_remove (id (bottom obstacle)) (scene s)) in
        set_obstacles s (delete i (obstacles s))
      else set_obstacles s (<[i := obstacle]> (obstacles s))
  end.

(** [for (let i = obstacles.length - 1; i >= 0; i--)]: [n] is the number
    of indices still to visit, the next one being [n - 1]. *)
Fixpoint obstacleLoop (deltaTime : Q) (n : nat) (s : State) : State :=
  match n with
  | O => s
  | S i => obstacleLoop deltaTime i (loopBody deltaTime i s)
  end.

(** Collision check, game-over handling and seed rotation. *)
Definition collisionCheck (s : State) : State :=
  if negb (gameOver s) && checkCollisions s then set_gameOver s true else s.

Definition handleGameOverState (s : State) : State :=
  if gameOver s then
    set_seed (set_gameOverMessage s "block") (setVisible (seed s) false)
  else s.

Definition seedRotation (deltaTime : Q) (s : State) : State :=
  if visible (seed s) then
    let r := rotation (seed s) in
    let r := Vec3 (x_ r) (y_ r + 0.5 * deltaTime) (z_ r) in
    let r := Vec3 (x_ r + 0.3 * deltaTime) (y_ r) (z_ r) in
    set_seed s (setRotation (seed s) r)
  else s.

(** [animate()], for a frame whose clock delta is [deltaTime] and whose
    random draws, if it spawns, are [u1] and [u2].  Rendering reads the
    state and changes nothing the game logic reads before recomputing it. *)
Definition animate (deltaTime u1 u2 : Q) (s : State) : State :=
  if gameStarted s && negb (gameOver s) then
    let s := seedPhysics s in
    let s := boundaryChecks s in
    let s := obstacleSpawning deltaTime u1 u2 s in
    let s := obstacleLoop deltaTime (length (obstacles s)) s in
    let s := collisionCheck s in
    let s := handleGameOverState s in
    seedRotation deltaTime s
  else if gameOver s then
    let s := if negb (String.eqb (gameOverMessage s) "block")
             then set_gameOverMessage s "block" else s in
    if visible (seed s) then set_seed s (setVisible (seed s) false) else s
  else
    if negb (String.eqb (startMessage s) "block")
    then set_startMessage s "block" else s.

(** *** The script as a transition system *)

(** The state once the declarations of the script have run, before its
    last three lines: the seed at [x = -viewWidth / 3], [y = 0], with its
    bounding box computed, and the scene holding the lights and the seed.
    The UI texts come from the page and are overwritten by [resetGame]. *)
Definition loadedState : State :=
  MkState
    (setPosition (newMesh Seed (sphereGeometryBox seedRadius))
                 (Vec3 ((- viewWidth) / 3) 0 0))
    0 false false 0 [] 0
    [AmbientLight; DirectionalLight; Seed] 0
    "" "" "".

(** [resetGame()] at the end of the script gives the state the first
    frame and the first input find. *)
Definition initialState : State := resetGame loadedState.

(** What happens next: an input event ([mousedown] or [touchstart]) or
    an animation frame, with the clock delta and the random draws it sees. *)
Inductive Event :=
| Input
| Frame (deltaTime u1 u2 : Q).

Definition step (s : State) (e : Event) : State :=
  match e with
  | Input => handleInput s
  | Frame deltaTime u1 u2 => animate deltaTime u1 u2 s
  end.

Definition run (es : list Event) (s : State) : State := fold_left step es s.

(** A frame in which the game logic runs. *)
Definition running (s : State) : bool := gameStarted s && negb (gameOver s).

(** *** The frame, read pair by pair *)

(** The state in which the backward loop of a running frame starts. *)
Definition beforeLoop (deltaTime u1 u2 : Q) (s : State) : State :=
  obstacleSpawning deltaTime u1 u2 (boundaryChecks (seedPhysics s)).

(** What [animate] makes of the state the seed physics leaves. *)
Definition afterPhysics (deltaTime u1 u2 : Q) (s : State) : State :=
  let s := obstacleSpawning deltaTime u1 u2 (boundaryChecks s) in
  let s := obstacleLoop deltaTime (length (obstacles s)) s in
  seedRotation deltaTime (handleGameOverState (collisionCheck s)).

(** What one visit of the loop makes of a pair. *)
Definition visit (seedX deltaTime : Q) (obstacle : Obstacle) : Obstacle :=
  let obstacle := moved deltaTime obstacle in
  if scoringCheck seedX obstacle then markPassed obstacle else obstacle.

(** The pairs a frame cleans up. *)
Definition despawnedIn (deltaTime u1 u2 : Q) (s : State) : list Obstacle :=
  if running s then
    filter (fun o => cleanupCheck o = true)
           (map (visit (x_ (position (seed s))) deltaTime)
                (obstacles (beforeLoop deltaTime u1 u2 s)))
  else [].

(** The pairs cleaned up since the last reset, along a run: a history
    kept beside the state, which the program itself does not keep. *)
Definition retire (s : State) (e : Event) (retired : list Obstacle) : list Obstacle :=
  match e with
  | Input => if gameOver s then [] else retired
  | Frame deltaTime u1 u2 => retired ++ despawnedIn deltaTime u1 u2 s
  end.

Fixpoint retiredAfter (es : list Event) (s : State) (retired : list Obstacle)
  : list Obstacle :=
  match es with
  | [] => retired
  | e :: es => retiredAfter es (step s e) (retire s e retired)
  end.

(** The number of pairs of a list whose [passed] flag is set. *)
Definition passedCount (l : list Obstacle) : nat :=
  length (filter (fun o => passed o = true) l).


(** The pairs that survive a pass of the loop over [l], the number of
    pairs the pass scores, and the scene the pass leaves (the loop runs
    from the last pair to the first). *)
Definition survivors (seedX deltaTime : Q) (l : list Obstacle) : list Obstacle :=
  filter (fun o => cleanupCheck o = false) (map (visit seedX deltaTime) l).

Definition scoringCount (seedX deltaTime : Q) (l : list Obstacle) : nat :=
  length (filter (fun o => scoringCheck seedX (moved deltaTime o) = true) l).

Definition sceneCleanup (seedX deltaTime : Q) (l : list Obstacle)
  (children : list ObjectId) : list ObjectId :=
  foldr (fun o children =>
           let o := visit seedX deltaTime o in
           if cleanupCheck o
           then scene_remove (id (bottom o)) (scene_remove (id (top o)) children)
           else children)
        children l.

(** The part of the state the loop leaves alone. *)
Definition besideLoop (s : State) :=
  (seed s, seedVelocityY s, gameStarted s, gameOver s, timeSinceLastSpawn s,
   meshCount s, startMessage s, gameOverMessage s).

(** *** What holds of every state the game reaches *)

(** The seed is within the vertical bounds. *)
Definition inBounds (s : State) : Prop :=
  seedMinY <= y_ (position (seed s)) <= seedMaxY.

(** The identities of the meshes of a list of pairs. *)
Definition meshIds (l : list Obstacle) : list ObjectId :=
  flat_map (fun o => [id (top o); id (bottom o)]) l.

(** Both solids of a pair are at the same abscissa. *)
Definition aligned (o : Obstacle) : Prop :=
  x_ (position (top o)) = x_ (position (bottom o)).

(** No object is twice in the scene; the meshes of the pairs are
    distinct objects of the scene, built before any mesh still to come;
    the pairs are aligned. *)
Definition sceneOk (children : list ObjectId) (l : list Obstacle) (count : nat) : Prop :=
  NoDup children /\
  NoDup (meshIds l) /\
  (forall i, In i (meshIds l) -> In i children) /\
  (forall n, In (ObstacleMesh n) children -> (n < count)%nat) /\
  Forall aligned l.

(** The seed keeps its abscissa and stays within bounds, and the scene
    and the pairs are as above. *)
Definition wellFormed (s : State) : Prop :=
  x_ (position (seed s)) = (- viewWidth) / 3 /\
  inBounds s /\
  sceneOk (scene s) (obstacles s) (meshCount s).

(** The score counts the pairs passed since the last reset: those of
    the list whose flag is set, and those cleaned up, [retired], which all
    had it set. *)
Definition scoreCounts (s : State) (retired : list Obstacle) : Prop :=
  score s = (passedCount (obstacles s) + length retired)%nat /\
  Forall (fun o => passed o = true) retired.

End Game.

(** ** The 2D-canvas script *)

Module Canvas.

(** A JavaScript string, as the sequence of its UTF-16 code units, and
    the strings the script writes as literals. *)
Definition JSString := list N.

Definition js (s : string) : JSString :=
  map N_of_ascii (list_ascii_of_string s).

(** [String.prototype.trim] strips ECMAScript's WhiteSpace and
    LineTerminator code points from both ends. *)
Definition isWhiteSpace (c : N) : bool :=
  ((9 <=? c) && (c <=? 13) || (c =? 32) || (c =? 160) || (c =? 5760)
   || (8192 <=? c) && (c <=? 8202) || (c =? 8232) || (c =? 8233) || (c =? 8239)
   || (c =? 8287) || (c =? 12288) || (c =? 65279))%N.

Fixpoint trimStart (s : JSString) : JSString :=
  match s with
  | c :: rest => if isWhiteSpace c then trimStart rest else s
  | [] => []
  end.

Definition trimEnd (s : JSString) : JSString := rev (trimStart (rev s)).

Definition trim (s : JSString) : JSString := trimEnd (trimStart s).

(** What the loop paints on the canvas since it last cleared it. *)
Inductive Drawing :=
| FillRect (x y w h : Q)
| FillText (text : JSString) (x y : Q).

(** The variables of the script, the two elements whose [style.display]
    it sets, the canvas, and the number of callbacks handed to
    [requestAnimationFrame] that have not run yet. *)
Record State := MkState {
  username : JSString;
  running : bool;
  y : Q;
  vy : Q;
  gravity : Q;
  score : nat;
  introScreen : string;
  gameContainer : string;
  canvas : list Drawing;
  pendingFrames : nat
}.

(** The state the [DOMContentLoaded] listener leaves; the two [display]
    values are the page's. *)
Definition loaded (introDisplay containerDisplay : string) : State :=
  MkState [] false 800 0 1.5 0 introDisplay containerDisplay [] 0.

(** [gameLoop()]. *)
Definition gameLoop (s : State) : State :=
  if negb (running s) then s
  else
    let vy1 := vy s + gravity s in
    let y1 := y s + vy1 in
    let '(y2, vy2) := if y1 >? 960 then (960, 0) else (y1, vy1) in
    MkState (username s) (running s) y2 vy2 (gravity s) (score s)
      (introScreen s) (gameContainer s)
      [FillRect 100 y2 60 80;
       FillText (js "Vault ID: " ++ username s) 30 40;
       FillText (js "Score: " ++ js (pretty (score s))) 30 70]
      (S (pendingFrames s)).

(** The click listener of the start button; [value] is what the username
    field holds at the click. *)
Definition startClick (value : JSString) (s : State) : State :=
  let s := MkState (trim value) (running s) (y s) (vy s) (gravity s) (score s)
             (introScreen s) (gameContainer s) (canvas s) (pendingFrames s) in
  match username s with
  | [] => s
  | _ :: _ =>
      gameLoop
        (MkState (username s) true (y s) (vy s) (gravity s) (score s)
           "none" "block" (canvas s) (pendingFrames s))
  end.

(** The [keydown] listener; [code] is the event's [code]. *)
Definition keydown (code : string) (s : State) : State :=
  if String.eqb code "Space" && (y s >=? 960) then
    MkState (username s) (running s) (y s) (-25) (gravity s) (score s)
      (introScreen s) (gameContainer s) (canvas s) (pendingFrames s)
  else s.

(** The browser runs one requested animation callback, if there is one. *)
Definition animationFrame (s : State) : State :=
  match pendingFrames s with
  | O => s
  | S n =>
      gameLoop
        (MkState (username s) (running s) (y s) (vy s) (gravity s) (score s)
           (introScreen s) (gameContainer s) (canvas s) n)
  end.

Inductive Event :=
| StartClick (value : JSString)
| KeyDown (code : string)
| AnimationFrame.

Definition step (s : State) (e : Event) : State :=
  match e with
  | StartClick value => startClick value s
  | KeyDown code => keydown code s
  | AnimationFrame => animationFrame s
  end.

Definition run (es : list Event) (s : State) : State := fold_left step es s.

End Canvas.

(** ** The mechanic, in the words of the specification

    "A player-controlled object falls under gravity and receives an upward
    impulse on input": each frame the velocity changes by the gravity
    constant and the position by the new velocity; each input event sets the
    velocity to the impulse constant.  The constants, signed along the
    axis of the screen, are what the two scripts may differ in. *)

Module Mechanic.

Definition fall (gravity : Q) (yv : Q * Q) : Q * Q :=
  let '(y, v) := yv in (y + (v + gravity), v + gravity).

Definition impulse (strength : Q) (yv : Q * Q) : Q * Q :=
  let '(y, _) := yv in (y, strength).

End Mechanic.

(** ** Translations as world matrices

    The matrices of objects that are moved and never turned: the world
    matrix is the position, and a box is carried along by adding it.
    This is what three.js computes for the obstacle meshes, whose
    rotation stays zero, and for the seed until it first turns; for a
    turned seed three.js finds a larger box, which encloses this one.  The
    properties above hold for every choice of the matrices; only the
    concrete runs below are computed with these, and in none of them is a
    solid within reach of the seed when the collision test is made. *)

Definition translateBox (b : Box3) (t : Vector3) : Box3 :=
  MkBox3 (Vec3 (x_ (min b) + x_ t) (y_ (min b) + y_ t) (z_ (min b) + z_ t))
         (Vec3 (x_ (max b) + x_ t) (y_ (max b) + y_ t) (z_ (max b) + z_ t)).

Definition translations : WorldMatrices :=
  {| Matrix4 := Vector3;
     identityMatrix := Vec3 0 0 0;
     compose := fun p _ => p;
     applyMatrix4 := translateBox |}.

(** A run that ends at the ceiling: the player taps before each of
    eighteen frames, sixty frames to the second. *)
Definition tapAndFrame : list Event := [Input; Frame (1 / 60) (1 / 2) (1 / 2)].

Definition ceilingRun : list Event := concat (replicate 18 tapAndFrame).

(** The same run one frame short, the last tap made: the seed is about
    to cross the ceiling, and the pair spawned in the first frame is still
    right of the seed. *)
Definition underCeilingRun : list Event :=
  concat (replicate 17 tapAndFrame) ++ [Input].

Definition atCeiling : @State translations := run ceilingRun initialState.

Definition underCeiling : @State translations := run underCeilingRun initialState.

Definition justStarted : @State translations := handleInput initialState.

(** The frame after the first tap: the seed is in the air. *)
Definition inTheAir : @State translations :=
  animate (1 / 60) (1 / 2) (1 / 2) justStarted.

(** The canvas script after a click on the start button with a name
    in the username field, on a page that sets no inline [display]. *)
Definition canvasStarted : Canvas.State :=
  Canvas.startClick (Canvas.js " ada ") (Canvas.loaded "" "").

(** Every event of the canvas script but a start click with a username. *)
Definition idleEvent (e : Canvas.Event) : Prop :=
  match e with
  | Canvas.StartClick value => Canvas.trim value = []
  | _ => True
  end.

(** ** The camera and [resizeRenderer()]

    The orthographic camera is read by the renderer only; the game logic
    never looks at it.  Its frustum is kept here beside the state of the
    game. *)

Module OrthographicCamera.

Record t := Make {
  left : Q;
  right : Q;
  top : Q;
  bottom : Q
}.

End OrthographicCamera.

(** [new THREE.OrthographicCamera(viewWidth / -2, viewWidth / 2,
    viewHeight / 2, viewHeight / -2, 0.1, 1000)]. *)
Definition camera : OrthographicCamera.t :=
  OrthographicCamera.Make (viewWidth / -2) (viewWidth / 2)
                          (viewHeight / 2) (viewHeight / -2).

(** [resizeRenderer()], for a container [width] by [height] pixels. *)
Definition resizeRenderer (width height : Q) (c : OrthographicCamera.t)
  : OrthographicCamera.t :=
  let newAspectRatio := width / height in
  OrthographicCamera.Make (viewHeight * newAspectRatio / -2)
                          (viewHeight * newAspectRatio / 2)
                          (viewHeight / 2)
                          (viewHeight / -2).

(** ** Readings of the state used by the further properties *)

(** What the scene holds beside the obstacle meshes. *)
Definition sceneBase : list ObjectId := [AmbientLight; DirectionalLight; Seed].

(** The energy of the seed at the ceiling with the surge velocity. *)
Definition energyBound : Q :=
  2 * gravity * seedMaxY + surgeStrength * surgeStrength - gravity * surgeStrength.

Section GameReadings.

Context {W : WorldMatrices}.

(** The page shows what the game is in: the score element shows the
    score; the game-over message is shown, and the seed hidden, exactly
    when the game is over; the start message is shown exactly until the
    game is started. *)
Definition uiConsistent (s : State) : Prop :=
  scoreElement s = scoreLabel (score s) /\
  visible (seed s) = negb (gameOver s) /\
  gameOverMessage s = (if gameOver s then "block" else "none")%string /\
  startMessage s = (if gameStarted s then "none" else "block")%string /\
  (gameOver s = true -> gameStarted s = true).

(** What the page shows while the phases of a running frame go by,
    until the frame handles the game-over state. *)
Definition uiRunning (s : State) : Prop :=
  scoreElement s = scoreLabel (score s) /\
  visible (seed s) = true /\
  gameOverMessage s = "none"%string /\
  startMessage s = "none"%string /\
  gameStarted s = true.

(** The scene is the lights, the seed and the meshes of the pairs. *)
Definition sceneExact (s : State) : Prop :=
  scene s = sceneBase ++ meshIds (obstacles s).

(** Twice the gravity constant times an energy of the seed: its height,
    plus the square of the velocity over twice the gravity, less half the
    velocity. *)
Definition energy (s : State) : Q :=
  2 * gravity * y_ (position (seed s))
  + seedVelocityY s * seedVelocityY s - gravity * seedVelocityY s.

(** What of a mesh no frame and no input changes. *)
Definition seedShape (m : Mesh) :=
  (x_ (position m), z_ (position m), boundingBox m, id m).

(** A game not yet started is as [resetGame] left it. *)
Definition pristine (s : State) : Prop :=
  gameStarted s = false ->
  score s = 0%nat /\ obstacles s = [] /\ seedVelocityY s = 0 /\
  y_ (position (seed s)) = 0 /\ timeSinceLastSpawn s = spawnInterval.

(** What the game logic and the page read of a state: all of it but the
    seed's rotation and world matrix and the count of meshes built. *)
Definition logic (s : State) :=
  (position (seed s), visible (seed s), boundingBox (seed s), id (seed s),
   seedVelocityY s, gameStarted s, gameOver s, score s, obstacles s,
   timeSinceLastSpawn s, scene s, scoreElement s, startMessage s, gameOverMessage s).

(** A frame whose clock delta is not negative; a frame whose random
    draws are draws of [Math.random()]. *)
Definition steadyClock (e : Event) : Prop :=
  match e with
  | Frame deltaTime _ _ => 0 <= deltaTime
  | Input => True
  end.

Definition drawsInRange (e : Event) : Prop :=
  match e with
  | Frame _ u1 u2 => 0 <= u1 < 1 /\ 0 <= u2 < 1
  | Input => True
  end.

(** A pair between the despawn line and the spawn abscissa. *)
Definition onTrack (o : Obstacle) : Prop :=
  obstacleDespawnX <= x_ (position (top o)) <= obstacleSpawnX.

(** A list of pairs from the leftmost to the rightmost. *)
Fixpoint ascending (l : list Obstacle) : Prop :=
  match l with
  | [] => True
  | o :: rest =>
      Forall (fun p => x_ (position (top o)) <= x_ (position (top p))) rest /\
      ascending rest
  end.

(** The shape of a pair, read off the positions and the bounding boxes
    of its two meshes: the top solid hangs from the top of the view and the
    bottom solid stands on its bottom, each to within [edgeTolerance]; each
    is at least 1 high and [obstacleWidth] wide and deep; and the gap
    between them is between [obstacleMinGap] and [obstacleMaxGap] high, to
    within [edgeTolerance]. *)
Definition pairGeometry (o : Obstacle) : Prop :=
  let topUpper := y_ (position (top o)) + y_ (max (boundingBox (top o))) in
  let topLower := y_ (position (top o)) + y_ (min (boundingBox (top o))) in
  let bottomUpper := y_ (position (bottom o)) + y_ (max (boundingBox (bottom o))) in
  let bottomLower := y_ (position (bottom o)) + y_ (min (boundingBox (bottom o))) in
  Qabs (topUpper - viewHeight / 2) <= edgeTolerance /\
  Qabs (bottomLower - - viewHeight / 2) <= edgeTolerance /\
  1 <= topUpper - topLower /\
  1 <= bottomUpper - bottomLower /\
  obstacleMinGap - edgeTolerance <= topLower - bottomUpper
    <= obstacleMaxGap + edgeTolerance /\
  x_ (max (boundingBox (top o))) - x_ (min (boundingBox (top o))) == obstacleWidth /\
  x_ (max (boundingBox (bottom o))) - x_ (min (boundingBox (bottom o))) == obstacleWidth /\
  z_ (max (boundingBox (top o))) - z_ (min (boundingBox (top o))) == obstacleWidth /\
  z_ (max (boundingBox (bottom o))) - z_ (min (boundingBox (bottom o))) == obstacleWidth.

End GameReadings.

(** ** Readings of the canvas script *)

(** A code unit that [trim] does not strip. *)
Definition inkUnit (c : N) : bool := negb (Canvas.isWhiteSpace c).

(** A start click with a username: the event that starts a loop. *)
Definition startsLoop (e : Canvas.Event) : bool :=
  match e with
  | Canvas.StartClick value =>
      match Canvas.trim value with [] => false | _ :: _ => true end
  | _ => false
  end.

(** What holds of the canvas script with [n] loops started: the player
    is not below the floor, gravity and score are as loaded, [n] animation
    callbacks are pending, and the script runs if [n] is not 0. *)
Definition canvasSteady (n : nat) (s : Canvas.State) : Prop :=
  Canvas.y s <= 960 /\
  Canvas.gravity s = 1.5 /\
  Canvas.score s = 0%nat /\
  Canvas.pendingFrames s = n /\
  Canvas.running s = negb (n =? 0)%nat.

(** * Properties *)

(** ** Comparisons *)

(** Linear arithmetic over [Q], with the divisions by constants the code
    writes turned into products first. *)
Ltac qlra := unfold Qdiv in *; cbn [Qinv Qnum Qden] in *; lra.

Ltac unfold_constants :=
  unfold seedMinY, seedMaxY, obstacleSpawnX, obstacleDespawnX, viewWidth,
    viewHeight, aspectRatio, seedRadius, obstacleWidth, obstacleMinGap,
    obstacleMaxGap, obstacleSpeed, spawnInterval, gravity, surgeStrength in *.

Lemma Qltb_lt a b : (a <? b) = true <-> a < b.
Proof.
  unfold Qltb. rewrite negb_true_iff.
  destruct (Qle_bool b a) eqn:E.
  - apply Qle_bool_iff in E. split; [discriminate | intros H; lra].
  - split; [intros _ | reflexivity].
    destruct (Qlt_le_dec a b) as [H | H]; [exact H |].
    apply Qle_bool_iff in H. congruence.
Qed.

Lemma Qltb_ge a b : (a <? b) = false <-> b <= a.
Proof.
  unfold Qltb. rewrite negb_false_iff. apply Qle_bool_iff.
Qed.

Lemma Qgtb_gt a b : (a >? b) = true <-> b < a.
Proof. apply Qltb_lt. Qed.

Lemma Qgtb_le a b : (a >? b) = false <-> a <= b.
Proof. apply Qltb_ge. Qed.

Lemma Qleb_le a b : (a <=? b) = true <-> a <= b.
Proof. apply Qle_bool_iff. Qed.

Lemma Qleb_gt a b : (a <=? b) = false <-> b < a.
Proof.
  unfold Qleb. destruct (Qle_bool a b) eqn:E.
  - apply Qle_bool_iff in E. split; [discriminate | intros H; lra].
  - split; [intros _ | reflexivity].
    destruct (Qlt_le_dec b a) as [H | H]; [exact H |].
    apply Qle_bool_iff in H. congruence.
Qed.

Lemma Qgeb_ge a b : (a >=? b) = true <-> b <= a.
Proof. apply Qle_bool_iff. Qed.

Lemma Qgeb_lt a b : (a >=? b) = false <-> a < b.
Proof. apply Qleb_gt. Qed.

(** ** Boxes *)

Lemma interval_overlap lo1 hi1 lo2 hi2 :
  lo1 <= hi1 -> lo2 <= hi2 ->
  (lo1 <= hi2 /\ lo2 <= hi1 <-> exists v, lo1 <= v <= hi1 /\ lo2 <= v <= hi2).
Proof.
  intros H1 H2. split.
  - intros [Ha Hb]. destruct (Qlt_le_dec lo1 lo2) as [H | H].
    + exists lo2. lra.
    + exists lo1. lra.
  - intros (v & Hv1 & Hv2). lra.
Qed.

(** [intersectsBox] on two boxes that have points: they share a point. *)
Lemma intersectsBox_overlap a b :
  nonEmpty a -> nonEmpty b ->
  (intersectsBox a b = true <-> exists p, containsPoint a p /\ containsPoint b p).
Proof.
  intros (Hax & Hay & Haz) (Hbx & Hby & Hbz).
  unfold intersectsBox, containsPoint.
  rewrite !andb_true_iff, !Qgeb_ge, !Qleb_le.
  split.
  - intros (((((X1 & X2) & Y1) & Y2) & Z1) & Z2).
    destruct (proj1 (interval_overlap _ _ _ _ Hax Hbx) (conj X1 X2)) as (x & Hx).
    destruct (proj1 (interval_overlap _ _ _ _ Hay Hby) (conj Y1 Y2)) as (y & Hy).
    destruct (proj1 (interval_overlap _ _ _ _ Haz Hbz) (conj Z1 Z2)) as (z & Hz).
    exists (Vec3 x y z). cbn. tauto.
  - intros (p & (X1 & Y1 & Z1) & (X2 & Y2 & Z2)).
    repeat split; lra.
Qed.

(** ** Single precision *)

Lemma roundHalfEven_error y : Qabs (inject_Z (roundHalfEven y) - y) <= 1 # 2.
Proof.
  pose proof (Qfloor_le y) as Hlo. pose proof (Qlt_floor y) as Hhi.
  rewrite inject_Z_plus in Hhi. change (inject_Z 1) with 1 in Hhi.
  unfold roundHalfEven. cbn zeta.
  apply Qabs_Qle_condition.
  destruct (Qcompare (y - inject_Z (Qfloor y)) (1 # 2)) eqn:E.
  - apply Qeq_alt in E.
    destruct (Z.even (Qfloor y)); rewrite ?inject_Z_plus;
      change (inject_Z 1) with 1; split; lra.
  - apply Qlt_alt in E. split; lra.
  - apply Qgt_alt in E. rewrite inject_Z_plus. change (inject_Z 1) with 1. split; lra.
Qed.

Lemma roundHalfEven_ge n y : inject_Z n <= y -> (n <= roundHalfEven y)%Z.
Proof.
  intros H. apply Qfloor_resp_le in H. rewrite Qfloor_Z in H.
  unfold roundHalfEven. cbn zeta.
  destruct (Qcompare _ _); [destruct (Z.even _) | |]; lia.
Qed.

Lemma two_power (k : Z) : (0 <= k)%Z -> 2 ^ k == inject_Z (2 ^ k).
Proof.
  intros H. rewrite (Zpower_Qpower 2 k H). reflexivity.
Qed.

Lemma exponent_spec x :
  ~ x == 0 -> 2 ^ exponent x <= Qabs x < 2 ^ (exponent x + 1).
Proof.
  intros Hx.
  set (a := Z.abs (Qnum x)). set (b := Z.pos (Qden x)).
  assert (Ha : (0 < a)%Z).
  { unfold a. destruct x as [n d]. unfold Qeq in Hx. cbn in *. lia. }
  assert (Hb : (0 < b)%Z) by (unfold b; lia).
  pose proof (Z.log2_spec a Ha) as La. pose proof (Z.log2_spec b Hb) as Lb.
  pose proof (Z.log2_nonneg a) as Na. pose proof (Z.log2_nonneg b) as Nb.
  assert (Habs : Qabs x == inject_Z a / inject_Z b).
  { destruct x as [n d]. unfold a, b. cbn [Qabs Qnum Qden]. apply Qmake_Qdiv. }
  assert (Hb' : 0 < inject_Z b) by (change 0 with (inject_Z 0); rewrite <- Zlt_Qlt; exact Hb).
  assert (Hlow : 2 ^ (Z.log2 a - Z.log2 b - 1) <= Qabs x).
  { replace (Z.log2 a - Z.log2 b - 1)%Z with (Z.log2 a - Z.succ (Z.log2 b))%Z by lia.
    rewrite Qpower_minus by discriminate.
    rewrite !two_power by lia. rewrite Habs.
    apply Qle_shift_div_l; [exact Hb' |].
    set (A := (2 ^ Z.log2 a)%Z) in *. set (B := (2 ^ Z.succ (Z.log2 b))%Z) in *.
    assert (HB : 0 < inject_Z B)
      by (change 0 with (inject_Z 0); rewrite <- Zlt_Qlt; lia).
    unfold Qdiv. rewrite <- Qmult_assoc, (Qmult_comm (/ inject_Z B)), Qmult_assoc.
    apply Qle_shift_div_r; [exact HB |].
    rewrite <- !inject_Z_mult, <- Zle_Qle. nia. }
  assert (Hhigh : Qabs x < 2 ^ (Z.log2 a - Z.log2 b + 1)).
  { replace (Z.log2 a - Z.log2 b + 1)%Z with (Z.succ (Z.log2 a) - Z.log2 b)%Z by lia.
    rewrite Qpower_minus by discriminate.
    rewrite !two_power by lia. rewrite Habs.
    set (A := (2 ^ Z.succ (Z.log2 a))%Z) in *. set (B := (2 ^ Z.log2 b)%Z) in *.
    assert (HB : 0 < inject_Z B)
      by (change 0 with (inject_Z 0); rewrite <- Zlt_Qlt; lia).
    apply Qlt_shift_div_r; [exact Hb' |].
    unfold Qdiv. rewrite <- Qmult_assoc, (Qmult_comm (/ inject_Z B)), Qmult_assoc.
    apply Qlt_shift_div_l; [exact HB |].
    rewrite <- !inject_Z_mult, <- Zlt_Qlt. nia. }
  unfold exponent. fold a. fold b. cbn zeta.
  set (e := (Z.log2 a - Z.log2 b)%Z) in *.
  destruct (Qle_bool (2 ^ e) (Qabs x)) eqn:E.
  - apply Qle_bool_iff in E. split; assumption.
  - assert (Hlt : Qabs x < 2 ^ e).
    { apply Qnot_le_lt. intros H. apply Qle_bool_iff in H. congruence. }
    replace (e - 1 + 1)%Z with e by lia. split; assumption.
Qed.

Lemma fround_ulp x e :
  ~ x == 0 -> (-126 <= exponent x)%Z -> e = exponent x ->
  fround x = inject_Z (roundHalfEven (x / 2 ^ (e - 23))) * 2 ^ (e - 23).
Proof.
  intros Hx He ->. unfold fround.
  destruct (Qeq_bool x 0) eqn:E; [apply Qeq_bool_iff in E; contradiction |].
  cbn zeta. rewrite Z.max_l by exact He. reflexivity.
Qed.

Lemma fround_error x :
  2 ^ (-126) <= Qabs x -> Qabs (fround x - x) <= Qabs x * (1 # 16777216).
Proof.
  intros Hn.
  assert (Hpos : 0 < Qabs x).
  { eapply Qlt_le_trans; [| exact Hn]. reflexivity. }
  assert (Hx : ~ x == 0).
  { intros H. rewrite H in Hpos. discriminate Hpos. }
  destruct (exponent_spec x Hx) as [Hlo Hhi].
  set (e := exponent x) in *.
  assert (He : (-126 <= e)%Z).
  { assert (H : (-126 < e + 1)%Z); [| lia].
    apply (Qpower_lt_compat_l_inv 2); [| reflexivity].
    eapply Qle_lt_trans; eassumption. }
  rewrite (fround_ulp x e Hx He eq_refl).
  assert (Hulp : 2 ^ (e - 23) == 2 ^ e * (1 # 8388608)).
  { rewrite Qpower_minus by discriminate. reflexivity. }
  assert (Hu : 0 < 2 ^ (e - 23)) by (apply Qpower_0_lt; reflexivity).
  set (ulp := 2 ^ (e - 23)) in *.
  set (y := x / ulp).
  assert (Hy : x == y * ulp).
  { unfold y. field. intros H. rewrite H in Hu. discriminate Hu. }
  pose proof (roundHalfEven_error y) as Hr.
  apply Qabs_Qle_condition in Hr. apply Qabs_Qle_condition.
  set (n := inject_Z (roundHalfEven y)) in *.
  assert (H1 : (n - y) * ulp <= (1 # 2) * ulp)
    by (apply Qmult_le_compat_r; lra).
  assert (H2 : - (1 # 2) * ulp <= (n - y) * ulp)
    by (apply Qmult_le_compat_r; lra).
  assert (H3 : n * ulp - x == (n - y) * ulp) by (rewrite Hy at 1; ring).
  rewrite H3. clearbody ulp n y. lra.
Qed.

Lemma fround_ge_power k x :
  (-126 <= k)%Z -> 2 ^ k <= x -> 2 ^ k <= fround x.
Proof.
  intros Hk Hx.
  assert (Hpos : 0 < x).
  { eapply Qlt_le_trans; [| exact Hx]. apply Qpower_0_lt. reflexivity. }
  assert (Hne : ~ x == 0) by (intros H; rewrite H in Hpos; discriminate Hpos).
  destruct (exponent_spec x Hne) as [Hlo Hhi].
  rewrite (Qabs_pos x) in Hlo, Hhi by lra.
  set (e := exponent x) in *.
  assert (He : (k <= e)%Z).
  { assert (H : (k < e + 1)%Z); [| lia].
    apply (Qpower_lt_compat_l_inv 2); [| reflexivity].
    eapply Qle_lt_trans; eassumption. }
  rewrite (fround_ulp x e Hne ltac:(lia) eq_refl).
  assert (Hulp : 2 ^ e == inject_Z 8388608 * 2 ^ (e - 23)).
  { rewrite Qpower_minus by discriminate. field. }
  assert (Hu : 0 < 2 ^ (e - 23)) by (apply Qpower_0_lt; reflexivity).
  set (ulp := 2 ^ (e - 23)) in *.
  assert (Hy : inject_Z 8388608 <= x / ulp).
  { apply Qle_shift_div_l; [exact Hu |]. rewrite <- Hulp. exact Hlo. }
  apply roundHalfEven_ge in Hy. rewrite Zle_Qle in Hy.
  apply Qle_trans with (2 ^ e);
    [apply Qpower_le_compat_l; [exact He | discriminate] |].
  rewrite Hulp. apply Qmult_le_compat_r; [exact Hy | lra].
Qed.

(** The half extent [BoxGeometry] keeps of a height between 1 and 16: at
    least a half, and within half the margin of the exact half. *)
Lemma fround_half_extent h :
  1 <= h <= 16 ->
  1 # 2 <= fround (h / 2) /\
  Qabs (fround (h / 2) - h / 2) <= edgeTolerance / 2.
Proof.
  intros [Hlo Hhi].
  assert (Hx : 1 # 2 <= h / 2 <= 8) by (split; qlra).
  set (x := h / 2) in *. clearbody x.
  split.
  - change (1 # 2) with (2 ^ (-1)). apply fround_ge_power; [lia |].
    change (2 ^ (-1)) with (1 # 2). apply Hx.
  - eapply Qle_trans; [apply fround_error |].
    + rewrite Qabs_pos by lra.
      apply Qle_trans with (1 # 2); [| apply Hx]. vm_compute. discriminate.
    + rewrite Qabs_pos by lra. unfold edgeTolerance. qlra.
Qed.

Lemma fround_half_width : fround (obstacleWidth / 2) == 3 # 4.
Proof.
  vm_compute. reflexivity.
Qed.

(** ** The game *)

Section GameProperties.

Context {W : WorldMatrices}.

Lemma animate_running deltaTime u1 u2 s :
  running s = true ->
  animate deltaTime u1 u2 s = afterPhysics deltaTime u1 u2 (seedPhysics s).
Proof.
  unfold running, animate, afterPhysics. intros ->. reflexivity.
Qed.

(** *** The seed physics, the input and the collision test *)

(** C1.  In a frame in which the game is started and not over, the seed
    is first moved by semi-implicit Euler integration: the velocity
    decreases by the gravity constant 0.015, then the height increases by
    the new velocity; the rest of the frame (boundary clamp first) works
    on that state.  Nothing but the seed's height, its world matrix and
    the velocity changes in this phase. *)
Theorem animate_seed_physics (deltaTime u1 u2 : Q) (s : State) :
  gameStarted s = true -> gameOver s = false ->
  let s1 := seedPhysics s in
  seedVelocityY s1 = seedVelocityY s - 0.015 /\
  y_ (position (seed s1)) = y_ (position (seed s)) + (seedVelocityY s - 0.015) /\
  x_ (position (seed s1)) = x_ (position (seed s)) /\
  (gameStarted s1, gameOver s1, score s1, obstacles s1, timeSinceLastSpawn s1, scene s1)
    = (gameStarted s, gameOver s, score s, obstacles s, timeSinceLastSpawn s, scene s) /\
  animate deltaTime u1 u2 s = afterPhysics deltaTime u1 u2 s1.
Proof.
  intros Hstarted Hover s1. subst s1.
  repeat split.
  apply animate_running. unfold running. rewrite Hstarted, Hover. reflexivity.
Qed.

(** C2 (as amended).  An input event received while the game is not over
    sets the vertical velocity to the surge value 0.45 whatever it was, and
    starts the game; an input event received when the game is over resets
    the game instead, which leaves the velocity at 0. *)
Theorem handleInput_surge (s : State) :
  (gameOver s = false ->
     seedVelocityY (handleInput s) = 0.45 /\ gameStarted (handleInput s) = true) /\
  (gameOver s = true ->
     handleInput s = resetGame s /\ seedVelocityY (handleInput s) = 0).
Proof.
  unfold handleInput. split; intros ->.
  - destruct (gameStarted s) eqn:E; simpl; rewrite ?E; split; reflexivity.
  - split; reflexivity.
Qed.



(** *** The backward loop is a pass over the pairs *)

Lemma loopBody_middle deltaTime pre o suf s :
  obstacles s = pre ++ o :: suf ->
  let seedX := x_ (position (seed s)) in
  let o' := visit seedX deltaTime o in
  let s' := loopBody deltaTime (length pre) s in
  obstacles s' = (if cleanupCheck o' then pre ++ suf else pre ++ o' :: suf) /\
  score s' = (if scoringCheck seedX (moved deltaTime o) then S (score s) else score s) /\
  scene s' = (if cleanupCheck o'
              then scene_remove (id (bottom o')) (scene_remove (id (top o')) (scene s))
              else scene s) /\
  besideLoop s' = besideLoop s.
Proof.
  intros Hobs seedX o' s'. subst s' o' seedX.
  unfold loopBody, visit.
  rewrite Hobs, list_lookup_middle by reflexivity.
  destruct (scoringCheck _ (moved deltaTime o)); cbn zeta;
    match goal with |- context [cleanupCheck ?x] => destruct (cleanupCheck x) end;
    cbn [obstacles score scene set_obstacles set_scene set_score besideLoop
         seed seedVelocityY gameStarted gameOver timeSinceLastSpawn meshCount
         startMessage gameOverMessage];
    rewrite ?Hobs, ?delete_middle;
    repeat split; try reflexivity;
    rewrite <- (Nat.add_0_r (length pre)), insert_app_r; reflexivity.
Qed.

Lemma obstacleLoop_prefix deltaTime pre :
  forall suf s,
    obstacles s = pre ++ suf ->
    let seedX := x_ (position (seed s)) in
    let s' := obstacleLoop deltaTime (length pre) s in
    obstacles s' = survivors seedX deltaTime pre ++ suf /\
    score s' = (score s + scoringCount seedX deltaTime pre)%nat /\
    scene s' = sceneCleanup seedX deltaTime pre (scene s) /\
    besideLoop s' = besideLoop s.
Proof.
  induction pre as [| o pre IH] using rev_ind; intros suf s Hobs.
  - cbn. rewrite Nat.add_0_r. auto.
  - rewrite <- app_assoc in Hobs. cbn [app] in Hobs.
    rewrite length_app, Nat.add_1_r. cbn [obstacleLoop].
    destruct (loopBody_middle deltaTime pre o suf s Hobs) as (Ho & Hs & Hc & Hb).
    cbn zeta in Ho, Hs, Hc.
    assert (Hseed : seed (loopBody deltaTime (length pre) s) = seed s)
      by (injection Hb; auto).
    unfold survivors, scoringCount, sceneCleanup.
    rewrite map_app, !filter_app, length_app, foldr_app. cbn [map foldr].
    fold (survivors (x_ (position (seed s))) deltaTime pre).
    fold (scoringCount (x_ (position (seed s))) deltaTime pre).
    set (o' := visit (x_ (position (seed s))) deltaTime o) in *.
    assert (Hn : cleanupCheck o' = true \/ cleanupCheck o' = false)
      by (destruct (cleanupCheck o'); auto).
    destruct Hn as [Hc' | Hc']; rewrite Hc' in Ho, Hc.
    + destruct (IH suf _ Ho) as (Ho2 & Hs2 & Hc2 & Hb2).
      cbn zeta in Ho2, Hs2, Hc2. rewrite Hseed in Ho2, Hs2, Hc2.
      rewrite Ho2, Hs2, Hc2, Hb2, Hs, Hc.
      rewrite filter_cons_False, filter_nil, app_nil_r by congruence.
      fold (sceneCleanup (x_ (position (seed s))) deltaTime pre).
      rewrite Hc'.
      repeat split; try assumption.
      destruct (scoringCheck _ (moved deltaTime o)) eqn:E.
      * rewrite filter_cons_True by assumption. cbn. lia.
      * rewrite filter_cons_False by congruence. cbn. lia.
    + destruct (IH (o' :: suf) _ Ho) as (Ho2 & Hs2 & Hc2 & Hb2).
      cbn zeta in Ho2, Hs2, Hc2. rewrite Hseed in Ho2, Hs2, Hc2.
      rewrite Ho2, Hs2, Hc2, Hb2, Hs, Hc.
      rewrite filter_cons_True, filter_nil by assumption.
      fold (sceneCleanup (x_ (position (seed s))) deltaTime pre).
      rewrite Hc', <- app_assoc.
      repeat split; try assumption.
      destruct (scoringCheck _ (moved deltaTime o)) eqn:E.
      * rewrite filter_cons_True by assumption. cbn. lia.
      * rewrite filter_cons_False by congruence. cbn. lia.
Qed.

(** The whole loop of a frame. *)
Lemma obstacleLoop_pass deltaTime s :
  let seedX := x_ (position (seed s)) in
  let s' := obstacleLoop deltaTime (length (obstacles s)) s in
  obstacles s' = survivors seedX deltaTime (obstacles s) /\
  score s' = (score s + scoringCount seedX deltaTime (obstacles s))%nat /\
  scene s' = sceneCleanup seedX deltaTime (obstacles s) (scene s) /\
  besideLoop s' = besideLoop s.
Proof.
  destruct (obstacleLoop_prefix deltaTime (obstacles s) [] s) as (Ho & H).
  { rewrite app_nil_r. reflexivity. }
  rewrite app_nil_r in Ho. auto.
Qed.

(** *** The scene *)

Lemma scene_remove_In i j children :
  In i (scene_remove j children) -> In i children.
Proof.
  induction children as [| c rest IH]; cbn; [tauto |].
  destruct (decide (c = j)); cbn; tauto.
Qed.

Lemma scene_remove_other i j children :
  i <> j -> In i children -> In i (scene_remove j children).
Proof.
  intros Hne. induction children as [| c rest IH]; cbn; [tauto |].
  destruct (decide (c = j)) as [-> | Hc]; cbn; intuition congruence.
Qed.

Lemma scene_remove_NoDup j children :
  NoDup children -> NoDup (scene_remove j children).
Proof.
  induction 1 as [| c rest Hc Hnd IH]; cbn; [constructor |].
  destruct (decide (c = j)); [assumption |].
  constructor; [| assumption].
  rewrite list_elem_of_In in *. intros H. apply Hc. eapply scene_remove_In, H.
Qed.

Lemma scene_remove_gone j children :
  NoDup children -> ~ In j (scene_remove j children).
Proof.
  induction 1 as [| c rest Hc Hnd IH]; cbn; [tauto |].
  rewrite list_elem_of_In in Hc.
  destruct (decide (c = j)) as [-> | Hne]; cbn; [assumption |].
  intros [H | H]; [congruence | tauto].
Qed.

Lemma removeAllFromScene_In i l : forall children,
  In i (removeAllFromScene l children) -> In i children.
Proof.
  induction l as [| o rest IH]; cbn; intros children H; [assumption |].
  apply IH in H. eapply scene_remove_In, scene_remove_In, H.
Qed.

Lemma removeAllFromScene_NoDup l : forall children,
  NoDup children -> NoDup (removeAllFromScene l children).
Proof.
  induction l as [| o rest IH]; cbn; intros children H; [assumption |].
  apply IH. do 2 apply scene_remove_NoDup. assumption.
Qed.

(** *** The phases of a frame, field by field *)

Lemma seedPhysics_fields s :
  let s' := seedPhysics s in
  seedVelocityY s' = seedVelocityY s - gravity /\
  y_ (position (seed s')) = y_ (position (seed s)) + (seedVelocityY s - gravity) /\
  x_ (position (seed s')) = x_ (position (seed s)) /\
  gameStarted s' = gameStarted s /\ gameOver s' = gameOver s /\ score s' = score s /\
  obstacles s' = obstacles s /\ timeSinceLastSpawn s' = timeSinceLastSpawn s /\
  scene s' = scene s /\ meshCount s' = meshCount s.
Proof. repeat split. Qed.

Lemma boundaryChecks_beside s :
  let s' := boundaryChecks s in
  x_ (position (seed s')) = x_ (position (seed s)) /\
  gameStarted s' = gameStarted s /\ score s' = score s /\
  obstacles s' = obstacles s /\ timeSinceLastSpawn s' = timeSinceLastSpawn s /\
  scene s' = scene s /\ meshCount s' = meshCount s.
Proof.
  unfold boundaryChecks.
  destruct (_ <? seedMinY); [| destruct (_ >? seedMaxY)]; repeat split.
Qed.

Lemma boundaryChecks_low s :
  y_ (position (seed s)) < seedMinY ->
  y_ (position (seed (boundaryChecks s))) = seedMinY /\
  seedVelocityY (boundaryChecks s) = 0 /\
  gameOver (boundaryChecks s) = true.
Proof.
  intros H. apply Qltb_lt in H. unfold boundaryChecks. rewrite H.
  repeat split.
Qed.

Lemma boundaryChecks_high s :
  seedMaxY < y_ (position (seed s)) ->
  y_ (position (seed (boundaryChecks s))) = seedMaxY /\
  seedVelocityY (boundaryChecks s) = 0 /\
  gameOver (boundaryChecks s) = true.
Proof.
  intros H.
  assert (Hlow : (y_ (position (seed s)) <? seedMinY) = false).
  { apply Qltb_ge. unfold_constants. qlra. }
  apply Qgtb_gt in H. unfold boundaryChecks. rewrite Hlow, H.
  repeat split.
Qed.

Lemma boundaryChecks_within s :
  inBounds s -> boundaryChecks s = s.
Proof.
  intros [Hlo Hhi]. apply Qltb_ge in Hlo. apply Qgtb_le in Hhi.
  unfold boundaryChecks. rewrite Hlo, Hhi. reflexivity.
Qed.

Lemma boundaryChecks_inBounds s : inBounds (boundaryChecks s).
Proof.
  unfold boundaryChecks, inBounds.
  destruct (_ <? seedMinY) eqn:Elo; [| destruct (_ >? seedMaxY) eqn:Ehi]; cbn.
  - unfold_constants. qlra.
  - unfold_constants. qlra.
  - apply Qltb_ge in Elo. apply Qgtb_le in Ehi. auto.
Qed.

Lemma obstacleSpawning_beside deltaTime u1 u2 s :
  let s' := obstacleSpawning deltaTime u1 u2 s in
  seed s' = seed s /\ seedVelocityY s' = seedVelocityY s /\
  gameStarted s' = gameStarted s /\ gameOver s' = gameOver s /\ score s' = score s.
Proof.
  unfold obstacleSpawning, createObstacle. cbn zeta.
  set (c := _ >=? _). destruct c; [| repeat split].
  set (d := _ || _). destruct d; repeat split.
Qed.

Lemma collisionCheck_beside s :
  let s' := collisionCheck s in
  seed s' = seed s /\ seedVelocityY s' = seedVelocityY s /\
  gameStarted s' = gameStarted s /\ score s' = score s /\
  obstacles s' = obstacles s /\ scene s' = scene s /\ meshCount s' = meshCount s.
Proof. unfold collisionCheck. destruct (_ && _); repeat split. Qed.

Lemma handleGameOverState_beside s :
  let s' := handleGameOverState s in
  position (seed s') = position (seed s) /\ seedVelocityY s' = seedVelocityY s /\
  gameStarted s' = gameStarted s /\ gameOver s' = gameOver s /\ score s' = score s /\
  obstacles s' = obstacles s /\ scene s' = scene s /\ meshCount s' = meshCount s.
Proof. unfold handleGameOverState. destruct (gameOver s) eqn:E; repeat split; exact E. Qed.

Lemma seedRotation_beside deltaTime s :
  let s' := seedRotation deltaTime s in
  position (seed s') = position (seed s) /\ seedVelocityY s' = seedVelocityY s /\
  gameStarted s' = gameStarted s /\ gameOver s' = gameOver s /\ score s' = score s /\
  obstacles s' = obstacles s /\ scene s' = scene s /\ meshCount s' = meshCount s.
Proof. unfold seedRotation. destruct (visible (seed s)); repeat split. Qed.

(** *** Spawning *)

Lemma obstacleSpawning_cases deltaTime u1 u2 s :
  let s' := obstacleSpawning deltaTime u1 u2 s in
  (obstacles s' = obstacles s /\ scene s' = scene s /\ meshCount s' = meshCount s) \/
  exists o,
    obstacles s' = obstacles s ++ [o] /\
    scene s' = scene s ++ [id (top o); id (bottom o)] /\
    meshCount s' = S (S (meshCount s)) /\
    id (top o) = ObstacleMesh (meshCount s) /\
    id (bottom o) = ObstacleMesh (S (meshCount s)) /\
    x_ (position (top o)) = obstacleSpawnX /\
    x_ (position (bottom o)) = obstacleSpawnX /\
    passed o = false.
Proof.
  unfold obstacleSpawning, createObstacle. cbn zeta.
  set (c := _ >=? _). destruct c; [| left; repeat split].
  set (d := _ || _). destruct d; [left; repeat split | right].
  eexists.
  cbn [obstacles scene meshCount set_obstacles set_scene set_meshCount
       set_timeSinceLastSpawn].
  unfold scene_add. rewrite <- app_assoc.
  repeat split; reflexivity.
Qed.

Lemma meshIds_app l1 l2 : meshIds (l1 ++ l2) = meshIds l1 ++ meshIds l2.
Proof. unfold meshIds. apply flat_map_app. Qed.

Lemma sceneOk_spawn children l count o :
  sceneOk children l count ->
  id (top o) = ObstacleMesh count ->
  id (bottom o) = ObstacleMesh (S count) ->
  aligned o ->
  sceneOk (children ++ [id (top o); id (bottom o)]) (l ++ [o]) (S (S count)).
Proof.
  intros (Hsc & Hids & Hin & Hfresh & Hal) Ht Hb Ho.
  assert (Hnt : ~ In (ObstacleMesh count) children)
    by (intros H; apply Hfresh in H; lia).
  assert (Hnb : ~ In (ObstacleMesh (S count)) children)
    by (intros H; apply Hfresh in H; lia).
  assert (Hnew : NoDup [ObstacleMesh count; ObstacleMesh (S count)]).
  { apply NoDup_cons; split; [| apply NoDup_singleton].
    rewrite list_elem_of_In. cbn. intros [H | []]. injection H. lia. }
  rewrite Ht, Hb. repeat split.
  - apply NoDup_app. repeat split; [assumption | | assumption].
    intros i Hi Hi'. rewrite list_elem_of_In in Hi, Hi'.
    destruct Hi' as [<- | [<- | []]]; tauto.
  - rewrite meshIds_app. cbn. rewrite Ht, Hb.
    apply NoDup_app. repeat split; [assumption | | assumption].
    intros i Hi Hi'. rewrite list_elem_of_In in Hi, Hi'. apply Hin in Hi.
    destruct Hi' as [<- | [<- | []]]; tauto.
  - intros i. rewrite meshIds_app, !in_app_iff. cbn. rewrite Ht, Hb.
    intros [H | H]; [left; apply Hin, H | right; exact H].
  - intros n. rewrite in_app_iff. cbn.
    intros [H | [H | [H | []]]].
    + apply Hfresh in H. lia.
    + injection H. lia.
    + injection H. lia.
  - apply Forall_app. split; [assumption | constructor; [assumption | constructor]].
Qed.

(** *** A pass of the loop keeps the scene and the pairs in order *)

Lemma visit_ids seedX deltaTime o :
  id (top (visit seedX deltaTime o)) = id (top o) /\
  id (bottom (visit seedX deltaTime o)) = id (bottom o).
Proof. unfold visit. destruct (scoringCheck _ _); split; reflexivity. Qed.

Lemma visit_x seedX deltaTime o :
  x_ (position (top (visit seedX deltaTime o)))
    = x_ (position (top o)) - obstacleSpeed * deltaTime /\
  x_ (position (bottom (visit seedX deltaTime o)))
    = x_ (position (bottom o)) - obstacleSpeed * deltaTime.
Proof. unfold visit. destruct (scoringCheck _ _); split; reflexivity. Qed.

Lemma visit_aligned seedX deltaTime o :
  aligned o -> aligned (visit seedX deltaTime o).
Proof.
  unfold aligned. intros H.
  destruct (visit_x seedX deltaTime o) as [-> ->]. rewrite H. reflexivity.
Qed.

Lemma survivors_cons seedX deltaTime o l :
  survivors seedX deltaTime (o :: l) =
  (if cleanupCheck (visit seedX deltaTime o) then [] else [visit seedX deltaTime o])
  ++ survivors seedX deltaTime l.
Proof.
  unfold survivors. cbn [map].
  destruct (cleanupCheck (visit seedX deltaTime o)) eqn:E.
  - rewrite filter_cons_False by congruence. reflexivity.
  - rewrite filter_cons_True by assumption. reflexivity.
Qed.

Lemma In_survivors seedX deltaTime l o' :
  In o' (survivors seedX deltaTime l) <->
  cleanupCheck o' = false /\ exists o, In o l /\ o' = visit seedX deltaTime o.
Proof.
  unfold survivors. rewrite <- list_elem_of_In, list_elem_of_filter, list_elem_of_In.
  rewrite in_map_iff. split; intros (H & o & H1 & H2); (split; [exact H |]);
    exists o; auto.
Qed.

Lemma meshIds_survivors seedX deltaTime l i :
  In i (meshIds (survivors seedX deltaTime l)) -> In i (meshIds l).
Proof.
  unfold meshIds. rewrite !in_flat_map.
  intros (o' & Ho' & Hi). apply In_survivors in Ho' as (_ & o & Ho & ->).
  destruct (visit_ids seedX deltaTime o) as [Et Eb]. rewrite Et, Eb in Hi.
  exists o. auto.
Qed.

Lemma meshIds_cons o l :
  meshIds (o :: l) = id (top o) :: id (bottom o) :: meshIds l.
Proof. reflexivity. Qed.

Lemma sceneCleanup_cons seedX deltaTime o l children :
  sceneCleanup seedX deltaTime (o :: l) children =
  if cleanupCheck (visit seedX deltaTime o)
  then scene_remove (id (bottom o))
         (scene_remove (id (top o)) (sceneCleanup seedX deltaTime l children))
  else sceneCleanup seedX deltaTime l children.
Proof.
  unfold sceneCleanup. cbn [foldr].
  destruct (visit_ids seedX deltaTime o) as [-> ->]. reflexivity.
Qed.

Lemma sceneCleanup_In seedX deltaTime l children i :
  In i (sceneCleanup seedX deltaTime l children) -> In i children.
Proof.
  induction l as [| o l IH]; [auto |].
  rewrite sceneCleanup_cons.
  destruct (cleanupCheck _); [| exact IH].
  intros H. apply IH. eapply scene_remove_In, scene_remove_In, H.
Qed.

Lemma sceneCleanup_NoDup seedX deltaTime l children :
  NoDup children -> NoDup (sceneCleanup seedX deltaTime l children).
Proof.
  intros H. induction l as [| o l IH]; [auto |].
  rewrite sceneCleanup_cons.
  destruct (cleanupCheck _); [| exact IH].
  do 2 apply scene_remove_NoDup. exact IH.
Qed.

Lemma sceneCleanup_keeps seedX deltaTime l children i :
  In i children -> ~ In i (meshIds l) ->
  In i (sceneCleanup seedX deltaTime l children).
Proof.
  intros Hi. induction l as [| o l IH]; [auto |].
  rewrite sceneCleanup_cons, meshIds_cons. cbn [In].
  intros Hn.
  destruct (cleanupCheck _); [| tauto].
  apply scene_remove_other; [intros -> ; tauto |].
  apply scene_remove_other; [intros -> ; tauto |]. tauto.
Qed.

Lemma sceneCleanup_gone seedX deltaTime l children o :
  NoDup children -> In o l ->
  cleanupCheck (visit seedX deltaTime o) = true ->
  ~ In (id (top o)) (sceneCleanup seedX deltaTime l children) /\
  ~ In (id (bottom o)) (sceneCleanup seedX deltaTime l children).
Proof.
  intros Hnd Ho Hc. induction l as [| o' l IH]; [destruct Ho |].
  rewrite sceneCleanup_cons.
  pose proof (sceneCleanup_NoDup seedX deltaTime l children Hnd) as Hnd'.
  destruct Ho as [-> | Ho].
  - rewrite Hc. split.
    + intros H. apply scene_remove_In in H. revert H. apply scene_remove_gone, Hnd'.
    + apply scene_remove_gone, scene_remove_NoDup, Hnd'.
  - destruct (IH Ho) as [Ht Hb].
    destruct (cleanupCheck (visit seedX deltaTime o')); [| tauto].
    split; intros H; do 2 apply scene_remove_In in H; tauto.
Qed.

Lemma sceneOk_tail children o l count :
  sceneOk children (o :: l) count -> sceneOk children l count.
Proof.
  intros (Hsc & Hids & Hin & Hfresh & Hal). repeat split; try assumption.
  - rewrite meshIds_cons in Hids. do 2 apply NoDup_cons_1_2 in Hids. exact Hids.
  - intros i Hi. apply Hin. rewrite meshIds_cons. cbn [In]. auto.
  - apply Forall_cons_1 in Hal. tauto.
Qed.

Lemma sceneOk_pass seedX deltaTime children l count :
  sceneOk children l count ->
  sceneOk (sceneCleanup seedX deltaTime l children) (survivors seedX deltaTime l) count.
Proof.
  induction l as [| o l IH]; intros Hok.
  - exact Hok.
  - specialize (IH (sceneOk_tail _ _ _ _ Hok)).
    destruct Hok as (Hsc & Hids & Hin & Hfresh & Hal).
    destruct IH as (Hsc' & Hids' & Hin' & Hfresh' & Hal').
    rewrite meshIds_cons in Hids, Hin.
    apply NoDup_cons in Hids as (Ht & Hids). apply NoDup_cons in Hids as (Hb & Hids).
    rewrite list_elem_of_In in Ht, Hb. cbn [In] in Ht.
    apply Forall_cons_1 in Hal as (Ho & Hal).
    rewrite survivors_cons, sceneCleanup_cons.
    destruct (visit_ids seedX deltaTime o) as [Et Eb].
    destruct (cleanupCheck (visit seedX deltaTime o)); cbn [app].
    + repeat split; try assumption.
      * do 2 apply scene_remove_NoDup. assumption.
      * intros i Hi. pose proof (meshIds_survivors _ _ _ _ Hi) as Hi'.
        apply scene_remove_other; [intros -> ; tauto |].
        apply scene_remove_other; [intros -> ; tauto |].
        apply Hin', Hi.
      * intros n H. do 2 apply scene_remove_In in H. apply Hfresh', H.
    + repeat split; try assumption.
      * rewrite meshIds_cons, Et, Eb.
        apply NoDup_cons; split.
        { rewrite list_elem_of_In. cbn [In]. intros [H | H]; [tauto |].
          apply meshIds_survivors in H. tauto. }
        apply NoDup_cons; split; [| assumption].
        rewrite list_elem_of_In. intros H. apply meshIds_survivors in H. tauto.
      * rewrite meshIds_cons, Et, Eb. intros i [<- | [<- | Hi]].
        { apply sceneCleanup_keeps; [apply Hin; cbn; auto | tauto]. }
        { apply sceneCleanup_keeps; [apply Hin; cbn; auto | tauto]. }
        { apply Hin', Hi. }
      * constructor; [apply visit_aligned, Ho | assumption].
Qed.

(** *** A running frame, as a whole *)

Lemma besideLoop_fields a b :
  besideLoop a = besideLoop b ->
  seed a = seed b /\ seedVelocityY a = seedVelocityY b /\
  gameStarted a = gameStarted b /\ gameOver a = gameOver b /\
  meshCount a = meshCount b.
Proof. unfold besideLoop. intros H. injection H. auto. Qed.

Lemma beforeLoop_beside deltaTime u1 u2 s :
  let c := boundaryChecks (seedPhysics s) in
  let b := beforeLoop deltaTime u1 u2 s in
  seed b = seed c /\ seedVelocityY b = seedVelocityY c /\
  gameStarted b = gameStarted s /\ gameOver b = gameOver c /\ score b = score s /\
  x_ (position (seed b)) = x_ (position (seed s)).
Proof.
  intros c b. subst b c. unfold beforeLoop.
  destruct (boundaryChecks_beside (seedPhysics s)) as (Cx & Cst & Csc & _).
  set (c := boundaryChecks (seedPhysics s)) in *.
  destruct (obstacleSpawning_beside deltaTime u1 u2 c) as (Bseed & Bv & Bst & Bov & Bsc).
  rewrite Bseed, Bv, Bst, Bov, Bsc, Cx, Cst, Csc. repeat split.
Qed.

Lemma collisionCheck_gameOver_iff s :
  gameOver (collisionCheck s) = true <->
  gameOver s = true \/ checkCollisions s = true.
Proof.
  unfold collisionCheck. destruct (gameOver s) eqn:E; cbn [negb andb].
  - rewrite E. tauto.
  - destruct (checkCollisions s); cbn [gameOver set_gameOver];
      [tauto | rewrite E; intuition congruence].
Qed.

Lemma animate_running_summary deltaTime u1 u2 s :
  running s = true ->
  let c := boundaryChecks (seedPhysics s) in
  let b := beforeLoop deltaTime u1 u2 s in
  let seedX := x_ (position (seed s)) in
  let s' := animate deltaTime u1 u2 s in
  position (seed s') = position (seed c) /\
  seedVelocityY s' = seedVelocityY c /\
  obstacles s' = survivors seedX deltaTime (obstacles b) /\
  score s' = (score s + scoringCount seedX deltaTime (obstacles b))%nat /\
  scene s' = sceneCleanup seedX deltaTime (obstacles b) (scene b) /\
  meshCount s' = meshCount b /\
  gameStarted s' = true /\
  (gameOver s' = true <->
   gameOver c = true \/
   checkCollisions (obstacleLoop deltaTime (length (obstacles b)) b) = true).
Proof.
  intros Hrun c b seedX s'. subst s' b c seedX.
  rewrite (animate_running deltaTime u1 u2 s Hrun).
  unfold afterPhysics, beforeLoop. cbn zeta.
  destruct (boundaryChecks_beside (seedPhysics s)) as (Cx & Cst & Csc & _).
  set (c := boundaryChecks (seedPhysics s)) in *.
  destruct (obstacleSpawning_beside deltaTime u1 u2 c) as (Bseed & Bv & Bst & Bov & Bsc).
  set (b := obstacleSpawning deltaTime u1 u2 c) in *.
  destruct (obstacleLoop_pass deltaTime b) as (Lo & Ls & Lc & Lb).
  apply besideLoop_fields in Lb as (Lseed & Lv & Lst & Lov & Lm).
  set (l := obstacleLoop deltaTime (length (obstacles b)) b) in *.
  destruct (collisionCheck_beside l) as (Kseed & Kv & Kst & Ksc & Ko & Ks & Km).
  pose proof (collisionCheck_gameOver_iff l) as Kov.
  set (k := collisionCheck l) in *.
  destruct (handleGameOverState_beside k) as (Gp & Gv & Gst & Gov & Gsc & Go & Gs & Gm).
  set (g := handleGameOverState k) in *.
  destruct (seedRotation_beside deltaTime g) as (Rp & Rv & Rst & Rov & Rsc & Ro & Rs & Rm).
  rewrite Rp, Rv, Rst, Rov, Rsc, Ro, Rs, Rm.
  rewrite Gp, Gv, Gst, Gov, Gsc, Go, Gs, Gm.
  rewrite Kseed, Kv, Kst, Ksc, Ko, Ks, Km.
  rewrite Lseed, Lv, Lst, Lo, Ls, Lc, Lm, Bseed, Bv, Bst, Bsc, Cst, Csc.
  rewrite Cx.
  change (x_ (position (seed (seedPhysics s)))) with (x_ (position (seed s))).
  unfold running in Hrun. apply andb_prop in Hrun as [Hst _].
  repeat split; try assumption.
  - intros Hover. apply Kov in Hover. rewrite Lov, Bov in Hover. exact Hover.
  - intros Hover. apply Kov. rewrite Lov, Bov. exact Hover.
Qed.

(** *** Every reachable state is well formed *)

Lemma inBounds_zero : seedMinY <= 0 <= seedMaxY.
Proof. unfold_constants. split; qlra. Qed.

Lemma wellFormed_initialState : wellFormed initialState.
Proof.
  unfold wellFormed, inBounds, sceneOk.
  cbn [initialState resetGame loadedState seed obstacles scene meshCount position
       set_seed set_seedVelocityY set_score set_gameOver set_gameStarted
       set_timeSinceLastSpawn set_scene set_obstacles set_gameOverMessage
       set_startMessage setPosition setVisible setY newMesh x_ y_ z_
       removeAllFromScene meshIds flat_map].
  repeat split.
  - apply (proj1 inBounds_zero).
  - apply (proj2 inBounds_zero).
  - repeat (apply NoDup_cons; split;
            [rewrite list_elem_of_In; cbn [In]; intuition congruence |]).
    apply NoDup_nil_2.
  - apply NoDup_nil_2.
  - intros i [].
  - intros n [H | [H | [H | []]]]; discriminate.
  - constructor.
Qed.

Lemma wellFormed_resetGame s : wellFormed s -> wellFormed (resetGame s).
Proof.
  intros (Hx & Hb & Hsc & Hids & Hin & Hfresh & Hal).
  unfold wellFormed, inBounds, sceneOk.
  cbn [resetGame seed obstacles scene meshCount position
       set_seed set_seedVelocityY set_score set_gameOver set_gameStarted
       set_timeSinceLastSpawn set_scene set_obstacles set_gameOverMessage
       set_startMessage setPosition setVisible setY x_ y_ z_ meshIds flat_map].
  repeat split.
  - exact Hx.
  - apply (proj1 inBounds_zero).
  - apply (proj2 inBounds_zero).
  - apply removeAllFromScene_NoDup, Hsc.
  - apply NoDup_nil_2.
  - intros i [].
  - intros n H. apply removeAllFromScene_In in H. apply Hfresh, H.
  - constructor.
Qed.

Lemma wellFormed_handleInput s : wellFormed s -> wellFormed (handleInput s).
Proof.
  intros H. unfold handleInput.
  destruct (gameOver s); [apply wellFormed_resetGame, H |].
  destruct (gameStarted s); exact H.
Qed.

Lemma sceneOk_beforeLoop deltaTime u1 u2 s :
  sceneOk (scene s) (obstacles s) (meshCount s) ->
  let b := beforeLoop deltaTime u1 u2 s in
  sceneOk (scene b) (obstacles b) (meshCount b).
Proof.
  intros Hok b. subst b. unfold beforeLoop.
  destruct (boundaryChecks_beside (seedPhysics s)) as (_ & _ & _ & Bo & _ & Bs & Bm).
  change (obstacles (seedPhysics s)) with (obstacles s) in Bo.
  change (scene (seedPhysics s)) with (scene s) in Bs.
  change (meshCount (seedPhysics s)) with (meshCount s) in Bm.
  set (c := boundaryChecks (seedPhysics s)) in *.
  destruct (obstacleSpawning_cases deltaTime u1 u2 c)
    as [(Ho & Hs & Hm) | (o & Ho & Hs & Hm & Ht & Hbt & Hxt & Hxb & _)];
    rewrite Ho, Hs, Hm, Bo, Bs, Bm.
  - exact Hok.
  - rewrite Bm in Ht, Hbt. apply sceneOk_spawn; try assumption.
    unfold aligned. congruence.
Qed.

Lemma animate_idle deltaTime u1 u2 s :
  running s = false ->
  let s' := animate deltaTime u1 u2 s in
  position (seed s') = position (seed s) /\ seedVelocityY s' = seedVelocityY s /\
  gameStarted s' = gameStarted s /\ gameOver s' = gameOver s /\ score s' = score s /\
  obstacles s' = obstacles s /\ scene s' = scene s /\ meshCount s' = meshCount s.
Proof.
  unfold running, animate. intros ->.
  destruct (gameOver s) eqn:Hover.
  - destruct (String.eqb (gameOverMessage s) "block"); cbn [negb];
      destruct (visible (seed _)); repeat split; exact Hover.
  - destruct (String.eqb (startMessage s) "block"); repeat split; exact Hover.
Qed.

Lemma wellFormed_animate deltaTime u1 u2 s :
  wellFormed s -> wellFormed (animate deltaTime u1 u2 s).
Proof.
  intros (Hx & Hb & Hok).
  destruct (running s) eqn:Hrun.
  - destruct (animate_running_summary deltaTime u1 u2 s Hrun)
      as (Hp & _ & Ho & _ & Hs & Hm & _).
    unfold wellFormed, inBounds. rewrite Hp, Ho, Hs, Hm.
    split; [| split].
    + rewrite (proj1 (boundaryChecks_beside (seedPhysics s))). exact Hx.
    + apply boundaryChecks_inBounds.
    + apply sceneOk_pass, sceneOk_beforeLoop, Hok.
  - destruct (animate_idle deltaTime u1 u2 s Hrun)
      as (Hp & _ & _ & _ & _ & Ho & Hs & Hm).
    unfold wellFormed, inBounds. rewrite Hp, Ho, Hs, Hm. auto.
Qed.

Lemma run_app es1 es2 s : run (es1 ++ es2) s = run es2 (run es1 s).
Proof. apply fold_left_app. Qed.

Lemma wellFormed_step s e : wellFormed s -> wellFormed (step s e).
Proof.
  destruct e; [apply wellFormed_handleInput | apply wellFormed_animate].
Qed.

Lemma wellFormed_run es : forall s, wellFormed s -> wellFormed (run es s).
Proof.
  induction es as [| e es IH]; intros s H; [exact H |].
  apply IH, wellFormed_step, H.
Qed.

(** *** The claims on the seed *)

(** C7.  The height of the seed stays within
    [[seedMinY, seedMaxY] = [-viewHeight/2 + seedRadius, viewHeight/2 - seedRadius]]
    in every state the game reaches.  In a running frame, if the physics
    carries the seed below [seedMinY] (above [seedMaxY]), the frame leaves
    it at that bound, with velocity 0 and the game over; otherwise the
    frame leaves height and velocity as the physics computed them: the
    clamp is all that is done about a seed that left the field. *)
Theorem seed_height_clamped :
  (forall es, inBounds (run es initialState)) /\
  (forall deltaTime u1 u2 s,
     running s = true ->
     let y1 := y_ (position (seed s)) + (seedVelocityY s - gravity) in
     let s' := animate deltaTime u1 u2 s in
     inBounds s' /\
     (y1 < seedMinY ->
      y_ (position (seed s')) = seedMinY /\ seedVelocityY s' = 0 /\ gameOver s' = true) /\
     (seedMaxY < y1 ->
      y_ (position (seed s')) = seedMaxY /\ seedVelocityY s' = 0 /\ gameOver s' = true) /\
     (seedMinY <= y1 <= seedMaxY ->
      y_ (position (seed s')) = y1 /\ seedVelocityY s' = seedVelocityY s - gravity)) /\
  seedMinY == - viewHeight / 2 + seedRadius /\
  seedMaxY == viewHeight / 2 - seedRadius.
Proof.
  split; [| split; [| split; reflexivity]].
  - intros es. apply (wellFormed_run es initialState wellFormed_initialState).
  - intros deltaTime u1 u2 s Hrun y1 s'. subst s' y1.
    destruct (animate_running_summary deltaTime u1 u2 s Hrun)
      as (Hp & Hv & _ & _ & _ & _ & _ & Hov).
    unfold inBounds. rewrite Hp, Hv.
    destruct (seedPhysics_fields s) as (Hv1 & Hy & _).
    split; [apply boundaryChecks_inBounds |].
    split; [| split].
    + intros H. rewrite <- Hy in H.
      destruct (boundaryChecks_low _ H) as (E1 & E2 & E3).
      repeat split; try assumption. apply Hov. auto.
    + intros H. rewrite <- Hy in H.
      destruct (boundaryChecks_high _ H) as (E1 & E2 & E3).
      repeat split; try assumption. apply Hov. auto.
    + intros H. rewrite <- Hy in H.
      rewrite (boundaryChecks_within (seedPhysics s) H). auto.
Qed.

(** *** Spawning a pair *)

Lemma randFloat_range low high u :
  low <= high -> 0 <= u < 1 ->
  low <= randFloat low high u <= high.
Proof.
  intros Hlh [H0 H1]. unfold randFloat.
  assert (Ha : 0 <= u * (high - low)) by (apply Qmult_le_0_compat; lra).
  assert (Hb : u * (high - low) <= 1 * (high - low))
    by (apply Qmult_le_compat_r; lra).
  lra.
Qed.

(** C5.  For any two draws of [Math.random()] (each in [[0, 1)]),
    [createObstacle] adds exactly one pair, unpassed; the gap height lies in
    [[4.0, 5.5]] and the gap centre in
    [[-viewHeight/2 + gapHeight/2 + 1.0, viewHeight/2 - gapHeight/2 - 1.0]];
    both heights are at least 1, so the guard on degenerate heights does
    not fire, and both solids are at least 1 high.  The geometry keeps the
    half heights in single precision: the solids leave the gap between
    them, the top solid reaches up to [viewHeight/2] and the bottom one
    down to [-viewHeight/2], each to within [edgeTolerance], not
    exactly. *)
Theorem createObstacle_gap (u1 u2 : Q) (s : State) :
  0 <= u1 < 1 -> 0 <= u2 < 1 ->
  let gapHeight := randFloat obstacleMinGap obstacleMaxGap u1 in
  let gapCenterY :=
    randFloat (viewHeight / -2 + gapHeight / 2 + 1.0)
              (viewHeight / 2 - gapHeight / 2 - 1.0) u2 in
  let topHeight := viewHeight / 2 - (gapCenterY + gapHeight / 2) in
  let bottomHeight := viewHeight / 2 + (gapCenterY - gapHeight / 2) in
  4.0 <= gapHeight <= 5.5 /\
  - viewHeight / 2 + gapHeight / 2 + 1.0 <= gapCenterY
    <= viewHeight / 2 - gapHeight / 2 - 1.0 /\
  1 <= topHeight /\ 1 <= bottomHeight /\
  (topHeight <=? 0) || (bottomHeight <=? 0) = false /\
  exists o,
    obstacles (createObstacle u1 u2 s) = obstacles s ++ [o] /\
    passed o = false /\
    boundingBox (top o) = boxGeometryBox obstacleWidth topHeight obstacleWidth /\
    boundingBox (bottom o) = boxGeometryBox obstacleWidth bottomHeight obstacleWidth /\
    let topUpper := y_ (position (top o)) + y_ (max (boundingBox (top o))) in
    let topLower := y_ (position (top o)) + y_ (min (boundingBox (top o))) in
    let bottomUpper := y_ (position (bottom o)) + y_ (max (boundingBox (bottom o))) in
    let bottomLower := y_ (position (bottom o)) + y_ (min (boundingBox (bottom o))) in
    1 <= topUpper - topLower /\
    1 <= bottomUpper - bottomLower /\
    Qabs (topLower - bottomUpper - gapHeight) <= edgeTolerance /\
    Qabs (topUpper - viewHeight / 2) <= edgeTolerance /\
    Qabs (bottomLower - - viewHeight / 2) <= edgeTolerance.
Proof.
  intros Hu1 Hu2 gapHeight gapCenterY topHeight bottomHeight.
  assert (Hgap : 4.0 <= gapHeight <= 5.5).
  { apply (randFloat_range obstacleMinGap obstacleMaxGap u1); [| exact Hu1].
    unfold_constants. lra. }
  assert (Hcentre : viewHeight / -2 + gapHeight / 2 + 1.0 <= gapCenterY
                    <= viewHeight / 2 - gapHeight / 2 - 1.0).
  { apply randFloat_range; [| exact Hu2]. unfold_constants. qlra. }
  assert (Htop : 1 <= topHeight <= 16) by (subst topHeight; unfold_constants; split; qlra).
  assert (Hbottom : 1 <= bottomHeight <= 16)
    by (subst bottomHeight; unfold_constants; split; qlra).
  assert (Hguard : (topHeight <=? 0) || (bottomHeight <=? 0) = false).
  { apply orb_false_iff. split; apply Qleb_gt; lra. }
  destruct (fround_half_extent topHeight Htop) as [Ft Et].
  destruct (fround_half_extent bottomHeight Hbottom) as [Fb Eb].
  apply Qabs_Qle_condition in Et, Eb.
  split; [exact Hgap |].
  split; [unfold_constants; qlra |].
  split; [apply Htop |]. split; [apply Hbottom |]. split; [exact Hguard |].
  unfold createObstacle. cbn zeta.
  fold gapHeight. fold gapCenterY. fold topHeight. fold bottomHeight.
  rewrite Hguard.
  eexists.
  cbn [obstacles set_obstacles set_scene set_meshCount top bottom passed
       boundingBox position setPosition newMesh y_].
  split; [reflexivity |]. split; [reflexivity |].
  split; [reflexivity |]. split; [reflexivity |].
  unfold boxGeometryBox.
  cbn [top bottom boundingBox position setPosition newMesh y_ min max].
  set (topHalf := fround (topHeight / 2)) in *.
  set (bottomHalf := fround (bottomHeight / 2)) in *.
  clearbody topHalf bottomHalf gapCenterY gapHeight.
  subst topHeight bottomHeight. unfold edgeTolerance in *. unfold_constants.
  split; [lra |]. split; [lra |].
  split; [apply Qabs_Qle_condition; split; qlra |].
  split; apply Qabs_Qle_condition; split; qlra.
Qed.

(** *** The life of a pair *)

Lemma meshIds_In o l : In o l -> In (id (top o)) (meshIds l) /\ In (id (bottom o)) (meshIds l).
Proof.
  intros H. unfold meshIds. rewrite !in_flat_map.
  split; exists o; cbn; auto.
Qed.

Lemma meshIds_top_inj l o1 o2 :
  NoDup (meshIds l) -> In o1 l -> In o2 l -> id (top o1) = id (top o2) -> o1 = o2.
Proof.
  induction l as [| o l IH]; [intros _ [] |].
  rewrite meshIds_cons. intros Hnd H1 H2 Heq.
  apply NoDup_cons in Hnd as (Ht & Hnd). apply NoDup_cons in Hnd as (_ & Hnd).
  rewrite list_elem_of_In in Ht. cbn [In] in Ht.
  destruct H1 as [<- | H1], H2 as [<- | H2].
  - reflexivity.
  - exfalso. apply Ht. right. rewrite Heq. apply meshIds_In, H2.
  - exfalso. apply Ht. right. rewrite <- Heq. apply meshIds_In, H1.
  - apply IH; assumption.
Qed.

(** A running frame of a state the game reaches, pair by pair. *)
Lemma frame_lifecycle (es : list Event) (deltaTime u1 u2 : Q) :
  let s := run es initialState in
  running s = true ->
  let b := beforeLoop deltaTime u1 u2 s in
  let s' := animate deltaTime u1 u2 s in
  let seedX := x_ (position (seed s)) in
  (obstacles b = obstacles s \/
   exists o, obstacles b = obstacles s ++ [o] /\
     x_ (position (top o)) = viewWidth / 2 + obstacleWidth /\
     x_ (position (bottom o)) = viewWidth / 2 + obstacleWidth /\
     In (id (top o)) (scene b) /\ In (id (bottom o)) (scene b)) /\
  (forall o, In o (obstacles b) ->
     let o' := visit seedX deltaTime o in
     x_ (position (top o)) = x_ (position (bottom o)) /\
     x_ (position (top o')) = x_ (position (top o)) - obstacleSpeed * deltaTime /\
     x_ (position (bottom o')) = x_ (position (bottom o)) - obstacleSpeed * deltaTime /\
     id (top o') = id (top o) /\ id (bottom o') = id (bottom o) /\
     (x_ (position (top o')) < viewWidth / -2 - obstacleWidth ->
      (forall p, In p (obstacles s') -> id (top p) <> id (top o)) /\
      ~ In (id (top o)) (scene s') /\ ~ In (id (bottom o)) (scene s')) /\
     (viewWidth / -2 - obstacleWidth <= x_ (position (top o')) ->
      In o' (obstacles s') /\
      In (id (top o)) (scene s') /\ In (id (bottom o)) (scene s'))) /\
  (forall p, In p (obstacles s') ->
     exists o, In o (obstacles b) /\ p = visit seedX deltaTime o).
Proof.
  intros s Hrun b s' seedX.
  assert (Hwf : wellFormed s)
    by apply (wellFormed_run es initialState wellFormed_initialState).
  destruct Hwf as (_ & _ & Hok).
  pose proof (sceneOk_beforeLoop deltaTime u1 u2 s Hok) as Hb. cbn zeta in Hb. fold b in Hb.
  pose proof (sceneOk_pass seedX deltaTime _ _ _ Hb) as Hpass.
  destruct (animate_running_summary deltaTime u1 u2 s Hrun)
    as (_ & _ & Ho & _ & Hs & _).
  fold b in Ho, Hs. fold s' in Ho, Hs. fold seedX in Ho, Hs.
  rewrite <- Ho, <- Hs in Hpass.
  destruct Hb as (Bnd & Bids & Bin & _ & Bal).
  destruct Hpass as (_ & _ & Pin & _).
  split; [| split].
  - destruct (boundaryChecks_beside (seedPhysics s)) as (_ & _ & _ & Co & _ & Cs & _).
    change (obstacles (seedPhysics s)) with (obstacles s) in Co.
    destruct (obstacleSpawning_cases deltaTime u1 u2 (boundaryChecks (seedPhysics s)))
      as [(Eo & _) | (o & Eo & Es & _ & _ & _ & Hxt & Hxb & _)].
    + left. unfold b, beforeLoop. rewrite Eo. exact Co.
    + right. exists o. unfold b, beforeLoop. rewrite Eo, Es, Co.
      repeat split; try assumption; apply in_app_iff; right; cbn; auto.
  - intros o Hin o'.
    destruct (visit_x seedX deltaTime o) as [Xt Xb].
    destruct (visit_ids seedX deltaTime o) as [It Ib].
    fold o' in Xt, Xb, It, Ib.
    split; [| split; [exact Xt | split; [exact Xb | split; [exact It | split; [exact Ib |]]]]].
    { rewrite Forall_forall in Bal. apply Bal. apply list_elem_of_In, Hin. }
    split.
    + intros Hlow. apply Qltb_lt in Hlow. fold obstacleDespawnX in Hlow.
      fold (cleanupCheck o') in Hlow.
      split.
      * intros p Hp Heq. rewrite Ho in Hp.
        apply In_survivors in Hp as (Hkeep & o2 & Hin2 & ->).
        rewrite (proj1 (visit_ids seedX deltaTime o2)) in Heq.
        apply (meshIds_top_inj _ _ _ Bids Hin2 Hin) in Heq. subst o2.
        unfold o' in Hlow. congruence.
      * rewrite Hs. apply sceneCleanup_gone; assumption.
    + intros Hhigh. apply Qltb_ge in Hhigh. fold obstacleDespawnX in Hhigh.
      fold (cleanupCheck o') in Hhigh.
      assert (Hin' : In o' (obstacles s')).
      { rewrite Ho. apply In_survivors. split; [exact Hhigh |]. exists o. auto. }
      split; [exact Hin' |].
      rewrite <- It, <- Ib.
      split; apply Pin; apply meshIds_In, Hin'.
  - intros p Hp. rewrite Ho in Hp.
    apply In_survivors in Hp as (_ & o & Hin & ->). exists o. auto.
Qed.

Lemma removeAllFromScene_gone l : forall children o,
  NoDup children -> In o l ->
  ~ In (id (top o)) (removeAllFromScene l children) /\
  ~ In (id (bottom o)) (removeAllFromScene l children).
Proof.
  induction l as [| o' l IH]; intros children o Hnd Ho; [destruct Ho |].
  cbn [removeAllFromScene].
  destruct Ho as [-> | Ho].
  - split; intros H; apply removeAllFromScene_In in H; revert H.
    + intros H. apply scene_remove_In in H. revert H.
      apply scene_remove_gone, Hnd.
    + apply scene_remove_gone, scene_remove_NoDup, Hnd.
  - apply IH; [do 2 apply scene_remove_NoDup; exact Hnd | exact Ho].
Qed.

(** C6 (as amended).  In every state the game reaches: a pair that a
    running frame spawns enters the list and the scene with both solids at
    [x = viewWidth/2 + obstacleWidth]; every pair of the list has its two
    solids at one abscissa, and a running frame moves both left by
    [obstacleSpeed * deltaTime]; the frame then takes the pair off the list
    and both its meshes off the scene if that abscissa is below
    [-viewWidth/2 - obstacleWidth], and keeps the pair in the list and its
    meshes in the scene if not, and its list holds nothing but the pairs so
    kept; a frame in which the game logic does not run keeps list and scene
    as they are.  Besides, an input received when the game is over empties
    the list and takes the meshes of every pair off the scene, wherever the
    pairs are; any other input keeps list and scene as they are. *)
Theorem obstacle_lifecycle (es : list Event) :
  let s := run es initialState in
  (running s = true ->
   forall deltaTime u1 u2,
     let b := beforeLoop deltaTime u1 u2 s in
     let s' := animate deltaTime u1 u2 s in
     let seedX := x_ (position (seed s)) in
     (obstacles b = obstacles s \/
      exists o, obstacles b = obstacles s ++ [o] /\
        x_ (position (top o)) = viewWidth / 2 + obstacleWidth /\
        x_ (position (bottom o)) = viewWidth / 2 + obstacleWidth /\
        In (id (top o)) (scene b) /\ In (id (bottom o)) (scene b)) /\
     (forall o, In o (obstacles b) ->
        let o' := visit seedX deltaTime o in
        x_ (position (top o)) = x_ (position (bottom o)) /\
        x_ (position (top o')) = x_ (position (top o)) - obstacleSpeed * deltaTime /\
        x_ (position (bottom o')) = x_ (position (bottom o)) - obstacleSpeed * deltaTime /\
        id (top o') = id (top o) /\ id (bottom o') = id (bottom o) /\
        (x_ (position (top o')) < viewWidth / -2 - obstacleWidth ->
         (forall p, In p (obstacles s') -> id (top p) <> id (top o)) /\
         ~ In (id (top o)) (scene s') /\ ~ In (id (bottom o)) (scene s')) /\
        (viewWidth / -2 - obstacleWidth <= x_ (position (top o')) ->
         In o' (obstacles s') /\
         In (id (top o)) (scene s') /\ In (id (bottom o)) (scene s'))) /\
     (forall p, In p (obstacles s') ->
        exists o, In o (obstacles b) /\ p = visit seedX deltaTime o)) /\
  (running s = false ->
   forall deltaTime u1 u2,
     obstacles (animate deltaTime u1 u2 s) = obstacles s /\
     scene (animate deltaTime u1 u2 s) = scene s) /\
  (gameOver s = true ->
   obstacles (handleInput s) = [] /\
   forall o, In o (obstacles s) ->
     ~ In (id (top o)) (scene (handleInput s)) /\
     ~ In (id (bottom o)) (scene (handleInput s))) /\
  (gameOver s = false ->
   obstacles (handleInput s) = obstacles s /\ scene (handleInput s) = scene s).
Proof.
  intros s. split; [| split; [| split]].
  - intros Hrun deltaTime u1 u2.
    exact (frame_lifecycle es deltaTime u1 u2 Hrun).
  - intros Hidle deltaTime u1 u2.
    destruct (animate_idle deltaTime u1 u2 s Hidle) as (_ & _ & _ & _ & _ & Ho & Hs & _).
    auto.
  - intros Hover.
    assert (Hwf : wellFormed s)
      by apply (wellFormed_run es initialState wellFormed_initialState).
    destruct Hwf as (_ & _ & Hnd & _).
    unfold handleInput. rewrite Hover.
    split; [reflexivity |].
    intros o Ho. apply (removeAllFromScene_gone (obstacles s) (scene s) o Hnd Ho).
  - intros Hover. unfold handleInput. rewrite Hover.
    destruct (gameStarted s); auto.
Qed.

(** *** The score *)

Lemma scoringCheck_iff seedX deltaTime o :
  scoringCheck seedX (moved deltaTime o) = true <->
  passed o = false /\ x_ (position (top o)) - obstacleSpeed * deltaTime < seedX.
Proof.
  unfold scoringCheck. cbn [passed moved top position updateMatrixWorld moveLeft
                             setPosition setX x_].
  rewrite andb_true_iff, negb_true_iff, Qgtb_gt. reflexivity.
Qed.

Lemma visit_passed seedX deltaTime o :
  passed (visit seedX deltaTime o) = true <->
  passed o = true \/ x_ (position (top o)) - obstacleSpeed * deltaTime < seedX.
Proof.
  unfold visit. destruct (scoringCheck seedX (moved deltaTime o)) eqn:E.
  - apply scoringCheck_iff in E. cbn. tauto.
  - cbn [passed moved]. split; [auto |].
    intros [H | H]; [exact H |].
    destruct (passed o) eqn:Ep; [reflexivity |].
    assert (scoringCheck seedX (moved deltaTime o) = true)
      by (apply scoringCheck_iff; auto).
    congruence.
Qed.

Lemma passedCount_app l1 l2 :
  passedCount (l1 ++ l2) = (passedCount l1 + passedCount l2)%nat.
Proof. unfold passedCount. rewrite filter_app, length_app. reflexivity. Qed.

Lemma passedCount_nil : passedCount [] = 0%nat.
Proof. reflexivity. Qed.

Lemma passedCount_cons o l :
  passedCount (o :: l) = ((if passed o then 1 else 0) + passedCount l)%nat.
Proof.
  unfold passedCount. destruct (passed o) eqn:E.
  - rewrite filter_cons_True by assumption. reflexivity.
  - rewrite filter_cons_False by congruence. reflexivity.
Qed.

(** A pass keeps the count: the pairs it keeps and the pairs it cleans
    up are, between them, the pairs that were passed and those it scores;
    and a pair it cleans up is a passed pair, the seed being to the right
    of the despawn line. *)
Lemma pass_count seedX deltaTime l :
  obstacleDespawnX <= seedX ->
  let gone := filter (fun o => cleanupCheck o = true) (map (visit seedX deltaTime) l) in
  (passedCount (survivors seedX deltaTime l) + length gone
   = passedCount l + scoringCount seedX deltaTime l)%nat /\
  Forall (fun o => passed o = true) gone.
Proof.
  intros Hseed. cbn zeta.
  induction l as [| o l [IH1 IH2]]; [split; [reflexivity | constructor] |].
  rewrite survivors_cons, passedCount_app, passedCount_cons. cbn [map].
  unfold scoringCount in *. 
  assert (Hv : passed (visit seedX deltaTime o)
               = passed o || scoringCheck seedX (moved deltaTime o)).
  { unfold visit. destruct (scoringCheck seedX (moved deltaTime o)) eqn:E.
    - cbn. rewrite orb_true_r. reflexivity.
    - cbn. rewrite orb_false_r. reflexivity. }
  assert (Hx : passed o = true -> scoringCheck seedX (moved deltaTime o) = false).
  { intros Hp. unfold scoringCheck. cbn [passed moved]. rewrite Hp. reflexivity. }
  destruct (cleanupCheck (visit seedX deltaTime o)) eqn:Ec.
  - assert (Hpassed : passed (visit seedX deltaTime o) = true).
    { apply visit_passed. destruct (passed o); [auto | right].
      unfold cleanupCheck in Ec. apply Qltb_lt in Ec.
      rewrite (proj1 (visit_x seedX deltaTime o)) in Ec. lra. }
    rewrite (filter_cons_True (fun o => cleanupCheck o = true)) by assumption.
    split; [| constructor; assumption].
    cbn [length app]. rewrite Hv in Hpassed.
    destruct (passed o) eqn:Ep.
    + rewrite (filter_cons_False _ o) by (rewrite Hx; [discriminate | reflexivity]).
      rewrite passedCount_nil. lia.
    + cbn in Hpassed. rewrite (filter_cons_True _ o) by assumption.
      rewrite passedCount_nil. cbn [length]. lia.
  - rewrite (filter_cons_False (fun o => cleanupCheck o = true)) by congruence.
    split; [| assumption].
    rewrite passedCount_cons, passedCount_nil, Hv.
    destruct (passed o) eqn:Ep.
    + rewrite (filter_cons_False _ o) by (rewrite Hx; [discriminate | reflexivity]).
      cbn [orb app]. lia.
    + destruct (scoringCheck seedX (moved deltaTime o)) eqn:Es.
      * rewrite (filter_cons_True _ o) by assumption. cbn [orb app length]. lia.
      * rewrite (filter_cons_False _ o) by congruence. cbn [orb app]. lia.
Qed.

Lemma despawn_left_of_seed : obstacleDespawnX <= (- viewWidth) / 3.
Proof. unfold_constants. qlra. Qed.

Lemma beforeLoop_passedCount deltaTime u1 u2 s :
  passedCount (obstacles (beforeLoop deltaTime u1 u2 s)) = passedCount (obstacles s).
Proof.
  unfold beforeLoop.
  destruct (boundaryChecks_beside (seedPhysics s)) as (_ & _ & _ & Co & _).
  change (obstacles (seedPhysics s)) with (obstacles s) in Co.
  destruct (obstacleSpawning_cases deltaTime u1 u2 (boundaryChecks (seedPhysics s)))
    as [(Eo & _) | (o & Eo & _ & _ & _ & _ & _ & _ & Hp)]; rewrite Eo, Co.
  - reflexivity.
  - rewrite passedCount_app, passedCount_cons, Hp. cbn. lia.
Qed.

Lemma scoreCounts_step s e retired :
  wellFormed s -> scoreCounts s retired ->
  scoreCounts (step s e) (retire s e retired).
Proof.
  intros (Hx & _) [Hscore Hall]. destruct e as [| deltaTime u1 u2]; cbn [step retire].
  - unfold handleInput. destruct (gameOver s).
    + split; [reflexivity | constructor].
    + split; [| exact Hall].
      destruct (gameStarted s); exact Hscore.
  - unfold despawnedIn. destruct (running s) eqn:Hrun.
    + destruct (animate_running_summary deltaTime u1 u2 s Hrun)
        as (_ & _ & Ho & Hs & _).
      destruct (pass_count (x_ (position (seed s))) deltaTime
                  (obstacles (beforeLoop deltaTime u1 u2 s))) as [Hc Hg].
      { rewrite Hx. apply despawn_left_of_seed. }
      cbn zeta in Hc.
      split.
      * rewrite Hs, Ho, length_app, Hscore.
        rewrite beforeLoop_passedCount in Hc. lia.
      * apply Forall_app. auto.
    + destruct (animate_idle deltaTime u1 u2 s Hrun) as (_ & _ & _ & _ & Hs & Ho & _).
      rewrite app_nil_r. split; [| exact Hall]. rewrite Hs, Ho. exact Hscore.
Qed.

Lemma scoreCounts_run es :
  forall s retired,
    wellFormed s -> scoreCounts s retired ->
    scoreCounts (run es s) (retiredAfter es s retired).
Proof.
  induction es as [| e es IH]; intros s retired Hwf Hsc; [exact Hsc |].
  cbn [retiredAfter]. apply IH.
  - apply wellFormed_step, Hwf.
  - apply scoreCounts_step; assumption.
Qed.

(** C10.  In every state the game reaches, the score is the number of
    pairs passed since the last reset: the pairs of the list whose flag
    is set, and the pairs cleaned up since, each of which had it set.  A
    pair is spawned unpassed; a running frame sets the flag of a pair
    exactly if it was set or the seed is now to the right of the pair, so
    the flag is never cleared; and the frame adds to the score the number
    of pairs whose flag it sets, one for each. *)
Theorem score_counts_passed_pairs (es : list Event) :
  let s := run es initialState in
  let retired := retiredAfter es initialState [] in
  score s = (passedCount (obstacles s) + length retired)%nat /\
  Forall (fun o => passed o = true) retired /\
  forall deltaTime u1 u2,
    let b := beforeLoop deltaTime u1 u2 s in
    let s' := animate deltaTime u1 u2 s in
    let seedX := x_ (position (seed s)) in
    (obstacles b = obstacles s \/
     exists o, obstacles b = obstacles s ++ [o] /\ passed o = false) /\
    (running s = true ->
     (forall o, In o (obstacles b) ->
        (passed (visit seedX deltaTime o) = true <->
         passed o = true \/ x_ (position (top o)) - obstacleSpeed * deltaTime < seedX)) /\
     score s' =
       (score s +
        length (filter (fun o => passed o = false /\
                                 passed (visit seedX deltaTime o) = true)
                       (obstacles b)))%nat) /\
    (running s = false -> score s' = score s /\ obstacles s' = obstacles s).
Proof.
  intros s retired.
  assert (Hwf : wellFormed s)
    by apply (wellFormed_run es initialState wellFormed_initialState).
  destruct (scoreCounts_run es initialState [] wellFormed_initialState) as [Hs Hr].
  { split; [reflexivity | constructor]. }
  split; [exact Hs |]. split; [exact Hr |].
  intros deltaTime u1 u2 b s' seedX.
  split; [| split].
  - destruct (boundaryChecks_beside (seedPhysics s)) as (_ & _ & _ & Co & _).
    change (obstacles (seedPhysics s)) with (obstacles s) in Co.
    destruct (obstacleSpawning_cases deltaTime u1 u2 (boundaryChecks (seedPhysics s)))
      as [(Eo & _) | (o & Eo & _ & _ & _ & _ & _ & _ & Hp)].
    + left. unfold b, beforeLoop. rewrite Eo. exact Co.
    + right. exists o. unfold b, beforeLoop. rewrite Eo, Co. auto.
  - intros Hrun. split.
    + intros o _. apply visit_passed.
    + destruct (animate_running_summary deltaTime u1 u2 s Hrun)
        as (_ & _ & _ & Hsc & _).
      fold b in Hsc. fold s' in Hsc. fold seedX in Hsc.
      rewrite Hsc. f_equal. unfold scoringCount. f_equal.
      apply list_filter_iff. intros o.
      rewrite scoringCheck_iff, visit_passed.
      split.
      * intros [Hp Hlt]. auto.
      * intros [Hp [Hq | Hlt]]; [congruence | auto].
  - intros Hidle.
    destruct (animate_idle deltaTime u1 u2 s Hidle) as (_ & _ & _ & _ & Hsc & Ho & _).
    auto.
Qed.

(** C4 (as amended).  Once the game is over, frames leave the score and
    the game-over flag as they are, however many follow; only an input
    resets them.  In a running frame the collision check against the
    obstacles comes after the loop that scores, so nothing is scored after
    it; the frame as a whole adds to the score the pairs its loop scores,
    whether or not the boundary checks ended the game earlier in the
    frame. *)
Theorem score_frozen_after_game_over (s : State) :
  (gameOver s = true ->
   forall es, Forall (fun e => e <> Input) es ->
     score (run es s) = score s /\ gameOver (run es s) = true) /\
  (gameOver s = true ->
   score (handleInput s) = 0%nat /\ gameOver (handleInput s) = false) /\
  (running s = true ->
   forall deltaTime u1 u2,
     let b := beforeLoop deltaTime u1 u2 s in
     let l := obstacleLoop deltaTime (length (obstacles b)) b in
     let s' := animate deltaTime u1 u2 s in
     score s' = score l /\
     score s' = (score s + scoringCount (x_ (position (seed s))) deltaTime (obstacles b))%nat /\
     (gameOver s' = true <->
      gameOver (boundaryChecks (seedPhysics s)) = true \/ checkCollisions l = true)).
Proof.
  split; [| split].
  - intros Hover es. revert s Hover.
    induction es as [| e es IH]; intros s Hover Hall; [auto |].
    apply Forall_cons_1 in Hall as [He Hall].
    destruct e as [| deltaTime u1 u2]; [congruence |].
    cbn [run fold_left step].
    assert (Hidle : running s = false)
      by (unfold running; rewrite Hover; apply andb_false_r).
    destruct (animate_idle deltaTime u1 u2 s Hidle) as (_ & _ & _ & Ho & Hs & _).
    rewrite Hover in Ho.
    destruct (IH _ Ho Hall) as [IH1 IH2].
    unfold run in IH1, IH2. rewrite IH1, IH2, Hs. auto.
  - intros Hover. unfold handleInput. rewrite Hover. split; reflexivity.
  - intros Hrun deltaTime u1 u2 b l s'.
    destruct (animate_running_summary deltaTime u1 u2 s Hrun)
      as (_ & _ & _ & Hs & _ & _ & _ & Hov).
    destruct (obstacleLoop_pass deltaTime b) as (_ & Ls & _ & _).
    destruct (beforeLoop_beside deltaTime u1 u2 s) as (_ & _ & _ & _ & Bsc & Bx).
    fold b in Bsc, Bx. rewrite Bx, Bsc in Ls.
    split; [| split; [exact Hs | exact Hov]].
    subst s' l. rewrite Hs. symmetry. exact Ls.
Qed.

End GameProperties.

(** ** The 2D-canvas script *)

Lemma startClick_blank value s :
  Canvas.trim value = [] ->
  Canvas.startClick value s =
  Canvas.MkState [] (Canvas.running s) (Canvas.y s) (Canvas.vy s) (Canvas.gravity s)
    (Canvas.score s) (Canvas.introScreen s) (Canvas.gameContainer s)
    (Canvas.canvas s) (Canvas.pendingFrames s).
Proof. intros H. unfold Canvas.startClick. cbn. rewrite H. reflexivity. Qed.

Lemma startClick_named value s :
  Canvas.trim value <> [] ->
  Canvas.startClick value s =
  Canvas.gameLoop
    (Canvas.MkState (Canvas.trim value) true (Canvas.y s) (Canvas.vy s)
       (Canvas.gravity s) (Canvas.score s) "none" "block"
       (Canvas.canvas s) (Canvas.pendingFrames s)).
Proof.
  intros H. unfold Canvas.startClick. cbn.
  destruct (Canvas.trim value); [congruence | reflexivity].
Qed.

Lemma gameLoop_fields s :
  Canvas.running s = true ->
  let s' := Canvas.gameLoop s in
  Canvas.username s' = Canvas.username s /\ Canvas.running s' = true /\
  Canvas.introScreen s' = Canvas.introScreen s /\
  Canvas.gameContainer s' = Canvas.gameContainer s /\
  Canvas.score s' = Canvas.score s /\ Canvas.gravity s' = Canvas.gravity s /\
  Canvas.pendingFrames s' = S (Canvas.pendingFrames s) /\
  Canvas.canvas s' <> [] /\
  (Canvas.y s', Canvas.vy s') =
    (let '(y1, vy1) := Mechanic.fall (Canvas.gravity s) (Canvas.y s, Canvas.vy s) in
     if y1 >? 960 then (960, 0) else (y1, vy1)).
Proof.
  intros Hrun. unfold Canvas.gameLoop. rewrite Hrun. cbn [negb Mechanic.fall].
  destruct (_ >? 960); cbn; repeat split; try assumption; discriminate.
Qed.

Lemma loaded_idle introDisplay containerDisplay e :
  idleEvent e ->
  Canvas.step (Canvas.loaded introDisplay containerDisplay) e
  = Canvas.loaded introDisplay containerDisplay.
Proof.
  destruct e as [value | code |]; cbn [idleEvent Canvas.step]; intros H.
  - rewrite (startClick_blank _ _ H). reflexivity.
  - unfold Canvas.keydown. destruct (String.eqb code "Space"); reflexivity.
  - reflexivity.
Qed.

(** C8.  A click on the start button with a username that is empty once
    trimmed changes nothing but the stored username: [running], the two
    [display] values, the canvas and the pending animation callbacks stay
    as they were; and as long as every click is such a click, the script
    stays in the state it was loaded in, whatever keys are pressed and
    frames pass: not running, the intro screen as the page shows it,
    nothing painted, no callback requested.  A click with a username that
    is not empty once trimmed hides the intro screen, shows the game
    container, sets [running], and runs the game loop, which paints and
    requests the next frame. *)
Theorem start_requires_username (value : Canvas.JSString) (s : Canvas.State) :
  (Canvas.trim value = [] ->
   let s' := Canvas.startClick value s in
   Canvas.running s' = Canvas.running s /\
   Canvas.introScreen s' = Canvas.introScreen s /\
   Canvas.gameContainer s' = Canvas.gameContainer s /\
   Canvas.canvas s' = Canvas.canvas s /\
   Canvas.pendingFrames s' = Canvas.pendingFrames s /\
   (Canvas.y s', Canvas.vy s') = (Canvas.y s, Canvas.vy s)) /\
  (forall introDisplay containerDisplay es,
     Forall idleEvent es ->
     Canvas.run es (Canvas.loaded introDisplay containerDisplay)
     = Canvas.loaded introDisplay containerDisplay) /\
  (Canvas.trim value <> [] ->
   let s' := Canvas.startClick value s in
   Canvas.introScreen s' = "none"%string /\
   Canvas.gameContainer s' = "block"%string /\
   Canvas.running s' = true /\
   Canvas.username s' = Canvas.trim value /\
   Canvas.canvas s' <> [] /\
   Canvas.pendingFrames s' = S (Canvas.pendingFrames s)).
Proof.
  split; [| split].
  - intros H s'. subst s'. rewrite (startClick_blank _ _ H). repeat split.
  - intros introDisplay containerDisplay es.
    induction es as [| e es IH]; intros Hall; [reflexivity |].
    apply Forall_cons_1 in Hall as [He Hall].
    cbn [Canvas.run fold_left]. rewrite (loaded_idle _ _ _ He). apply IH, Hall.
  - intros H s'. subst s'. rewrite (startClick_named _ _ H).
    match goal with |- context [Canvas.gameLoop ?c] =>
      destruct (gameLoop_fields c eq_refl) as (Hu & Hr & Hi & Hg & _ & _ & Hp & Hc & _)
    end.
    rewrite Hu, Hr, Hi, Hg, Hp. repeat split. exact Hc.
Qed.

Lemma canvas_score_step s e : Canvas.score (Canvas.step s e) = Canvas.score s.
Proof.
  destruct e as [value | code |]; cbn [Canvas.step].
  - unfold Canvas.startClick. cbn.
    destruct (Canvas.trim value); [reflexivity |].
    unfold Canvas.gameLoop. cbn. destruct (_ >? 960); reflexivity.
  - unfold Canvas.keydown. destruct (_ && _); reflexivity.
  - unfold Canvas.animationFrame. destruct (Canvas.pendingFrames s); [reflexivity |].
    unfold Canvas.gameLoop. cbn. destruct (Canvas.running s); cbn; [| reflexivity].
    destruct (_ >? 960); reflexivity.
Qed.

(** C9 (as amended).  The two scripts share the fall: in a running frame
    each changes the velocity by its gravity constant and then the height
    by the new velocity (the game with -0.015, up the screen being
    positive; the canvas script with its [gravity], 1.5, down the canvas
    being positive), before its own clamp (for the canvas script: at the
    floor, [y > 960], without ending anything).  On input they differ: the
    game sets the velocity to the surge on every input while it is not
    over; the canvas script sets it to -25 only for the Space key and only
    with the player on the floor ([y >= 960]), and otherwise ignores the
    key.  The canvas script has no obstacles, and its score never changes. *)
Theorem canvas_shares_the_fall {W : WorldMatrices} :
  (forall s : State,
     (y_ (position (seed (seedPhysics s))), seedVelocityY (seedPhysics s))
     = Mechanic.fall (- gravity) (y_ (position (seed s)), seedVelocityY s)) /\
  (forall c,
     Canvas.running c = true ->
     (Canvas.y (Canvas.gameLoop c), Canvas.vy (Canvas.gameLoop c))
     = (let '(y1, vy1) := Mechanic.fall (Canvas.gravity c) (Canvas.y c, Canvas.vy c) in
        if y1 >? 960 then (960, 0) else (y1, vy1))) /\
  (forall s : State,
     gameOver s = false ->
     (y_ (position (seed (handleInput s))), seedVelocityY (handleInput s))
     = Mechanic.impulse surgeStrength (y_ (position (seed s)), seedVelocityY s)) /\
  (forall code c,
     (Canvas.y (Canvas.keydown code c), Canvas.vy (Canvas.keydown code c))
     = if String.eqb code "Space" && (Canvas.y c >=? 960)
       then Mechanic.impulse (-25) (Canvas.y c, Canvas.vy c)
       else (Canvas.y c, Canvas.vy c)) /\
  (forall es c, Canvas.score (Canvas.run es c) = Canvas.score c).
Proof.
  split; [reflexivity |].
  split; [intros c Hrun; apply (gameLoop_fields c Hrun) |].
  split.
  { intros s Hover. unfold handleInput. rewrite Hover.
    destruct (gameStarted s); reflexivity. }
  split.
  { intros code c. unfold Canvas.keydown. destruct (_ && _); reflexivity. }
  intros es. induction es as [| e es IH]; intros c; [reflexivity |].
  cbn [Canvas.run fold_left]. unfold Canvas.run in IH. rewrite IH.
  apply canvas_score_step.
Qed.

(** ** The claims at concrete runs *)

(** C1 at the first frame after the first tap. *)
Lemma animate_seed_physics_witness :
  seedVelocityY (seedPhysics justStarted) = 0.45 - 0.015 /\
  animate (1 / 60) (1 / 2) (1 / 2) justStarted
  = afterPhysics (1 / 60) (1 / 2) (1 / 2) (seedPhysics justStarted).
Proof.
  destruct (animate_seed_physics (1 / 60) (1 / 2) (1 / 2) justStarted
              eq_refl eq_refl) as (Hv & _ & _ & _ & Ha).
  split; [exact Hv | exact Ha].
Defined.

(** C2 as stated fails at the ceiling: the game is over there, and the
    input resets it, leaving the velocity at 0 and not at the surge. *)
Lemma handleInput_surge_counterexample :
  gameOver atCeiling = true /\
  seedVelocityY (handleInput atCeiling) = 0 /\
  ~ seedVelocityY (handleInput atCeiling) == surgeStrength.
Proof.
  split; [vm_compute; reflexivity |].
  split; [vm_compute; reflexivity |].
  vm_compute. discriminate.
Qed.

(** C2 as amended, at the first tap and at the ceiling. *)
Lemma handleInput_surge_witness :
  seedVelocityY (handleInput (@initialState translations)) = 0.45 /\
  handleInput atCeiling = resetGame atCeiling.
Proof.
  split.
  - apply (proj1 (handleInput_surge initialState)). reflexivity.
  - apply (proj2 (handleInput_surge atCeiling)). vm_compute. reflexivity.
Defined.

(** C4 as stated fails one frame before the ceiling, if that frame is a
    long one: the boundary check ends the game, and the loop that follows
    in the same frame still scores the pair that the long frame carries
    past the seed. *)
Lemma score_after_boundary_counterexample :
  running underCeiling = true /\
  gameOver (boundaryChecks (seedPhysics underCeiling)) = true /\
  score underCeiling = 0%nat /\
  score (animate 3 (1 / 2) (1 / 2) underCeiling) = 1%nat.
Proof.
  repeat split; vm_compute; reflexivity.
Qed.

(** C4 as amended, at the ceiling: frames that follow change nothing. *)
Lemma score_frozen_after_game_over_witness :
  score (run [Frame (1 / 60) (1 / 2) (1 / 2); Frame 3 (1 / 2) (1 / 2)] atCeiling)
  = score atCeiling.
Proof.
  refine (proj1 (proj1 (score_frozen_after_game_over atCeiling) _ _ _)).
  - vm_compute. reflexivity.
  - repeat constructor; discriminate.
Defined.

(** C5 as stated fails at the draws 0.3 and 0.7.  The gap is 4.45 high
    and centred at 1.91, the top solid 3.865 and the bottom solid 7.685
    high.  Their half heights, 1.9325 and 3.8425, are not single-precision
    numbers: the geometry keeps 1.9325000047683716 and 3.8424999713897705,
    so that the top solid reaches up to 8.0000000047683716 and the bottom
    solid down to -7.9999999713897705, not to the edges of the view. *)
Lemma createObstacle_exact_edges_counterexample :
  exists o,
    obstacles (createObstacle (3 # 10) (7 # 10) (@initialState translations)) = [o] /\
    y_ (position (top o)) + y_ (max (boundingBox (top o)))
    == 1677721601 # 209715200 /\
    y_ (position (bottom o)) + y_ (min (boundingBox (bottom o)))
    == - (838860797 # 104857600) /\
    ~ y_ (position (top o)) + y_ (max (boundingBox (top o))) == viewHeight / 2 /\
    ~ y_ (position (bottom o)) + y_ (min (boundingBox (bottom o))) == - viewHeight / 2.
Proof.
  let l := eval vm_compute in
    (obstacles (createObstacle (3 # 10) (7 # 10) (@initialState translations))) in
  match l with
  | [?o] => exists o
  end.
  split; [vm_compute; reflexivity |].
  split; [vm_compute; reflexivity |].
  split; [vm_compute; reflexivity |].
  split; vm_compute; intros H; discriminate H.
Qed.

(** C5 as amended, at the middle of both ranges. *)
Lemma createObstacle_gap_witness :
  exists o,
    obstacles (createObstacle (1 / 2) (1 / 2) justStarted)
    = obstacles justStarted ++ [o] /\
    passed o = false.
Proof.
  assert (H : 0 <= 1 / 2 < 1) by (split; [discriminate | reflexivity]).
  destruct (createObstacle_gap (1 / 2) (1 / 2) justStarted H H)
    as (_ & _ & _ & _ & _ & o & Ho & Hp & _).
  exists o. split; [exact Ho | exact Hp].
Defined.

(** C6 as stated fails at the ceiling: the pair spawned in the first
    frame is in the list and the scene, far right of the despawn line, and
    the input that resets the game takes it off both. *)
Lemma despawn_only_below_threshold_counterexample :
  length (obstacles atCeiling) = 1%nat /\
  Forall (fun o => obstacleDespawnX <= x_ (position (top o))) (obstacles atCeiling) /\
  scene atCeiling
  = [AmbientLight; DirectionalLight; Seed; ObstacleMesh 0; ObstacleMesh 1] /\
  obstacles (handleInput atCeiling) = [] /\
  scene (handleInput atCeiling) = [AmbientLight; DirectionalLight; Seed].
Proof.
  split; [vm_compute; reflexivity |].
  split.
  - apply Forall_forall. intros o Ho. apply Qltb_ge.
    revert o Ho. apply Forall_forall. vm_compute. repeat constructor.
  - repeat split; vm_compute; reflexivity.
Qed.

(** C6 as amended, at the first frame after the first tap, which spawns
    a pair. *)
Lemma obstacle_lifecycle_witness :
  let s := run [Input] (@initialState translations) in
  let b := beforeLoop (1 / 60) (1 / 2) (1 / 2) s in
  obstacles b = obstacles s \/
  exists o,
    obstacles b = obstacles s ++ [o] /\
    x_ (position (top o)) = viewWidth / 2 + obstacleWidth /\
    x_ (position (bottom o)) = viewWidth / 2 + obstacleWidth /\
    In (id (top o)) (scene b) /\ In (id (bottom o)) (scene b).
Proof.
  assert (Hrun : running (run [Input] (@initialState translations)) = true)
    by (vm_compute; reflexivity).
  pose proof (proj1 (obstacle_lifecycle [Input]) Hrun (1 / 60) (1 / 2) (1 / 2)) as H.
  exact (proj1 H).
Defined.

(** C7 along the run to the ceiling. *)
Lemma seed_height_clamped_witness : inBounds atCeiling.
Proof.
  exact (proj1 (seed_height_clamped (W := translations)) ceilingRun).
Defined.

(** C10 after the long frame under the ceiling, which scores one pair. *)
Lemma score_counts_passed_pairs_witness :
  let es := underCeilingRun ++ [Frame 3 (1 / 2) (1 / 2)] in
  score (run es (@initialState translations))
  = (passedCount (obstacles (run es (@initialState translations)))
     + length (retiredAfter es (@initialState translations) []))%nat.
Proof.
  exact (proj1 (score_counts_passed_pairs (W := translations)
                  (underCeilingRun ++ [Frame 3 (1 / 2) (1 / 2)]))).
Defined.

(** C8 at a blank username and at a name with blanks around it. *)
Lemma start_requires_username_witness :
  Canvas.running (Canvas.startClick (Canvas.js "   ") (Canvas.loaded "" "")) = false /\
  Canvas.running canvasStarted = true /\
  Canvas.username canvasStarted = Canvas.js "ada".
Proof.
  split.
  - apply (proj1 (start_requires_username (Canvas.js "   ") (Canvas.loaded "" ""))).
    reflexivity.
  - destruct (proj2 (proj2 (start_requires_username (Canvas.js " ada ")
                              (Canvas.loaded "" ""))))
      as (_ & _ & Hr & Hu & _).
    + vm_compute. discriminate.
    + split; [exact Hr | exact Hu].
Defined.

(** C9 as stated fails in mid-air: the game answers an input with the
    surge, the canvas script leaves the velocity as it is, where the
    mechanic of the specification sets it to the impulse. *)
Lemma canvas_same_mechanic_counterexample :
  gameOver inTheAir = false /\
  seedVelocityY (handleInput inTheAir) = surgeStrength /\
  Canvas.running canvasStarted = true /\
  Canvas.vy (Canvas.keydown "Space" canvasStarted) = Canvas.vy canvasStarted /\
  ~ Canvas.vy (Canvas.keydown "Space" canvasStarted)
    == snd (Mechanic.impulse (-25) (Canvas.y canvasStarted, Canvas.vy canvasStarted)).
Proof.
  split; [vm_compute; reflexivity |].
  split; [vm_compute; reflexivity |].
  split; [vm_compute; reflexivity |].
  split; [vm_compute; reflexivity |].
  vm_compute. discriminate.
Qed.

(** C9 as amended, on the started canvas script: its score stays. *)
Lemma canvas_shares_the_fall_witness :
  Canvas.score
    (Canvas.run [Canvas.AnimationFrame; Canvas.KeyDown "Space"; Canvas.AnimationFrame]
       canvasStarted)
  = Canvas.score canvasStarted.
Proof.
  exact (proj2 (proj2 (proj2 (proj2 (canvas_shares_the_fall (W := translations)))))
           [Canvas.AnimationFrame; Canvas.KeyDown "Space"; Canvas.AnimationFrame]
           canvasStarted).
Defined.

(** * Further properties of the game *)

Section FurtherGameProperties.

Context {W : WorldMatrices}.

(** ** The backward loop *)

(** X1.  The backward loop with its splices is one pass over the pairs:
    whatever the list, it leaves the visited pairs that are not cleaned up,
    in their order, each visited once; it adds to the score the number of
    pairs it scores; it takes off the scene the two meshes of each pair it
    cleans up; and it touches nothing else of the state. *)
Theorem backward_loop_is_one_pass (deltaTime : Q) (s : State) :
  let seedX := x_ (position (seed s)) in
  let s' := obstacleLoop deltaTime (length (obstacles s)) s in
  obstacles s' =
    filter (fun o => cleanupCheck o = false)
           (map (visit seedX deltaTime) (obstacles s)) /\
  (length (obstacles s') <= length (obstacles s))%nat /\
  score s' =
    (score s +
     length (filter (fun o => scoringCheck seedX (moved deltaTime o) = true)
                    (obstacles s)))%nat /\
  scene s' = sceneCleanup seedX deltaTime (obstacles s) (scene s) /\
  (forall i, In i (scene s') -> In i (scene s)) /\
  besideLoop s' = besideLoop s.
Proof.
  intros seedX s'.
  destruct (obstacleLoop_pass deltaTime s) as (Ho & Hs & Hc & Hb).
  fold seedX in Ho, Hs, Hc. fold s' in Ho, Hs, Hc, Hb.
  split; [exact Ho |].
  split.
  { rewrite Ho. unfold survivors.
    rewrite <- (length_map (visit seedX deltaTime) (obstacles s)).
    apply length_filter. }
  split; [exact Hs |].
  split; [exact Hc |].
  split; [| exact Hb].
  intros i. rewrite Hc. apply sceneCleanup_In.
Qed.

(** ** The page and the game *)

Lemma uiRunning_seedPhysics s : uiRunning s -> uiRunning (seedPhysics s).
Proof. intros H. exact H. Qed.

Lemma uiRunning_boundaryChecks s : uiRunning s -> uiRunning (boundaryChecks s).
Proof.
  intros H. unfold boundaryChecks.
  destruct (_ <? seedMinY); [exact H |]. destruct (_ >? seedMaxY); exact H.
Qed.

Lemma uiRunning_obstacleSpawning deltaTime u1 u2 s :
  uiRunning s -> uiRunning (obstacleSpawning deltaTime u1 u2 s).
Proof.
  intros H. unfold obstacleSpawning, createObstacle. cbn zeta.
  set (c := _ >=? _). destruct c; [| exact H].
  set (d := _ || _). destruct d; exact H.
Qed.

Lemma uiRunning_loopBody deltaTime i s :
  uiRunning s -> uiRunning (loopBody deltaTime i s).
Proof.
  intros (Hl & Hv & Hg & Hs & Hst). unfold loopBody.
  destruct (obstacles s !! i) as [o |]; [| repeat split; assumption].
  cbn zeta.
  destruct (scoringCheck _ (moved deltaTime o));
    match goal with |- context [cleanupCheck ?x] => destruct (cleanupCheck x) end;
    repeat split; assumption.
Qed.

Lemma uiRunning_obstacleLoop deltaTime n :
  forall s, uiRunning s -> uiRunning (obstacleLoop deltaTime n s).
Proof.
  induction n as [| n IH]; intros s H; [exact H |].
  cbn [obstacleLoop]. apply IH, uiRunning_loopBody, H.
Qed.

Lemma uiRunning_collisionCheck s : uiRunning s -> uiRunning (collisionCheck s).
Proof.
  intros H. unfold collisionCheck. destruct (_ && _); exact H.
Qed.

Lemma uiConsistent_handleGameOverState s :
  uiRunning s -> uiConsistent (handleGameOverState s).
Proof.
  intros (Hl & Hv & Hg & Hs & Hst). unfold handleGameOverState, uiConsistent.
  destruct (gameOver s) eqn:E;
    cbn [scoreElement score visible seed gameOverMessage startMessage gameStarted
         gameOver set_seed set_gameOverMessage setVisible];
    rewrite ?E, ?Hst; repeat split; auto.
Qed.

Lemma uiConsistent_seedRotation deltaTime s :
  uiConsistent s -> uiConsistent (seedRotation deltaTime s).
Proof.
  intros H. unfold seedRotation. destruct (visible (seed s)) eqn:E; [| exact H].
  destruct H as (Hl & Hv & Hg & Hs & Hst). unfold uiConsistent.
  cbn [scoreElement score visible seed gameOverMessage startMessage gameStarted
       gameOver set_seed setRotation].
  repeat split; assumption.
Qed.

Lemma uiConsistent_running s :
  uiConsistent s -> running s = true -> uiRunning s.
Proof.
  intros (Hl & Hv & Hg & Hs & _) Hrun. unfold running in Hrun.
  apply andb_prop in Hrun as [Hst Hov]. apply negb_true_iff in Hov.
  rewrite Hov in Hv, Hg. rewrite Hst in Hs. repeat split; assumption.
Qed.

(** A frame in which the game logic does not run finds the page as it
    should be, and leaves the state as it is. *)
Lemma animate_idle_same deltaTime u1 u2 s :
  uiConsistent s -> running s = false -> animate deltaTime u1 u2 s = s.
Proof.
  intros (_ & Hv & Hg & Hs & Hst) Hidle. unfold running in Hidle.
  unfold animate. rewrite Hidle.
  destruct (gameOver s) eqn:Hover.
  - rewrite Hg. cbn [String.eqb Ascii.eqb Bool.eqb negb andb]. rewrite Hv. reflexivity.
  - destruct (gameStarted s); [discriminate |].
    rewrite Hs. reflexivity.
Qed.

Lemma uiConsistent_animate deltaTime u1 u2 s :
  uiConsistent s -> uiConsistent (animate deltaTime u1 u2 s).
Proof.
  intros H. destruct (running s) eqn:Hrun.
  - rewrite (animate_running deltaTime u1 u2 s Hrun). unfold afterPhysics. cbn zeta.
    apply uiConsistent_seedRotation, uiConsistent_handleGameOverState,
      uiRunning_collisionCheck, uiRunning_obstacleLoop, uiRunning_obstacleSpawning,
      uiRunning_boundaryChecks, uiRunning_seedPhysics, uiConsistent_running; assumption.
  - rewrite (animate_idle_same deltaTime u1 u2 s H Hrun). exact H.
Qed.

Lemma uiConsistent_resetGame s : uiConsistent (resetGame s).
Proof. repeat split. discriminate. Qed.

Lemma uiConsistent_handleInput s : uiConsistent s -> uiConsistent (handleInput s).
Proof.
  intros (Hl & Hv & Hg & Hs & Hst). unfold handleInput.
  destruct (gameOver s) eqn:Hover; [apply uiConsistent_resetGame |].
  unfold uiConsistent.
  destruct (gameStarted s) eqn:E;
    cbn [negb scoreElement score visible seed gameOverMessage startMessage gameStarted
         gameOver set_seedVelocityY set_startMessage set_gameStarted];
    rewrite ?Hover, ?E; repeat split; auto; discriminate.
Qed.

Lemma uiConsistent_run es : forall s, uiConsistent s -> uiConsistent (run es s).
Proof.
  induction es as [| e es IH]; intros s H; [exact H |].
  apply IH. destruct e; [apply uiConsistent_handleInput | apply uiConsistent_animate]; exact H.
Qed.

Lemma uiConsistent_reachable es : uiConsistent (run es initialState).
Proof. apply uiConsistent_run, uiConsistent_resetGame. Qed.

(** X2.  In every state the game reaches the page shows what the game is
    in: the score element shows [Score: ] and the score; the game-over
    message is shown and the seed hidden exactly when the game is over; the
    start message is shown exactly until the game is started; and a game
    that is over is one that was started. *)
Theorem page_shows_the_game (es : list Event) :
  let s := run es initialState in
  scoreElement s = scoreLabel (score s) /\
  (gameOver s = true <-> visible (seed s) = false) /\
  (gameOver s = true <-> gameOverMessage s = "block"%string) /\
  (gameOver s = false <-> gameOverMessage s = "none"%string) /\
  (gameStarted s = false <-> startMessage s = "block"%string) /\
  (gameStarted s = true <-> startMessage s = "none"%string) /\
  (gameOver s = true -> gameStarted s = true).
Proof.
  intros s. destruct (uiConsistent_reachable es) as (Hl & Hv & Hg & Hs & Hst).
  fold s in Hl, Hv, Hg, Hs, Hst.
  split; [exact Hl |].
  rewrite Hv, Hg, Hs.
  destruct (gameOver s), (gameStarted s); cbn; repeat split; auto; discriminate.
Qed.


(** ** The scene holds the meshes of the listed pairs, and no others *)

Lemma scene_remove_middle base i rest :
  ~ In i base -> scene_remove i (base ++ i :: rest) = base ++ rest.
Proof.
  induction base as [| c base IH]; cbn [app scene_remove In]; intros Hn.
  - destruct (decide (i = i)); [reflexivity | congruence].
  - destruct (decide (c = i)) as [-> | Hc]; [tauto |].
    rewrite IH by tauto. reflexivity.
Qed.

Lemma NoDup_app_head (base : list ObjectId) t b rest :
  NoDup (base ++ t :: b :: rest) ->
  ~ In t base /\ ~ In b base /\ NoDup (base ++ rest).
Proof.
  intros H. apply NoDup_app in H as (Hb & Hd & Hr).
  apply NoDup_cons in Hr as (_ & Hr). apply NoDup_cons in Hr as (_ & Hr).
  repeat split.
  - intros Hi. apply list_elem_of_In in Hi. apply (Hd _ Hi). left.
  - intros Hi. apply list_elem_of_In in Hi. apply (Hd _ Hi). right. left.
  - apply NoDup_app. repeat split; [assumption | | assumption].
    intros i Hi Hi'. apply (Hd _ Hi). do 2 right. exact Hi'.
Qed.

Lemma sceneCleanup_exact seedX deltaTime l :
  forall base,
    NoDup (base ++ meshIds l) ->
    sceneCleanup seedX deltaTime l (base ++ meshIds l)
    = base ++ meshIds (survivors seedX deltaTime l).
Proof.
  induction l as [| o l IH]; intros base Hnd; [reflexivity |].
  rewrite sceneCleanup_cons, survivors_cons, meshIds_cons.
  rewrite meshIds_cons in Hnd.
  destruct (NoDup_app_head _ _ _ _ Hnd) as (Ht & Hb & _).
  replace (base ++ id (top o) :: id (bottom o) :: meshIds l)
    with ((base ++ [id (top o); id (bottom o)]) ++ meshIds l) in *
    by (rewrite <- app_assoc; reflexivity).
  rewrite (IH _ Hnd). rewrite <- app_assoc. cbn [app].
  destruct (cleanupCheck (visit seedX deltaTime o)).
  - rewrite (scene_remove_middle base _ _ Ht).
    rewrite (scene_remove_middle base _ _ Hb). reflexivity.
  - cbn [app]. rewrite meshIds_cons.
    destruct (visit_ids seedX deltaTime o) as [-> ->]. reflexivity.
Qed.

Lemma removeAllFromScene_exact l :
  forall base,
    NoDup (base ++ meshIds l) ->
    removeAllFromScene l (base ++ meshIds l) = base.
Proof.
  induction l as [| o l IH]; intros base Hnd.
  - cbn. apply app_nil_r.
  - cbn [removeAllFromScene]. rewrite meshIds_cons in *.
    destruct (NoDup_app_head _ _ _ _ Hnd) as (Ht & Hb & Hrest).
    rewrite (scene_remove_middle base _ _ Ht).
    rewrite (scene_remove_middle base _ _ Hb).
    apply IH, Hrest.
Qed.

Lemma sceneExact_step s e :
  wellFormed s -> sceneExact s -> sceneExact (step s e).
Proof.
  intros Hwf Hex. unfold sceneExact in *.
  destruct Hwf as (_ & _ & Hok).
  destruct e as [| deltaTime u1 u2]; cbn [step].
  - unfold handleInput. destruct (gameOver s).
    + cbn [resetGame scene obstacles set_startMessage set_gameOverMessage set_obstacles
           set_scene set_timeSinceLastSpawn set_gameStarted set_gameOver set_score
           set_seed set_seedVelocityY meshIds flat_map].
      rewrite app_nil_r. rewrite Hex.
      apply removeAllFromScene_exact. rewrite <- Hex. apply Hok.
    + destruct (gameStarted s); exact Hex.
  - destruct (running s) eqn:Hrun.
    + destruct (animate_running_summary deltaTime u1 u2 s Hrun)
        as (_ & _ & Ho & _ & Hs & _).
      rewrite Ho, Hs.
      pose proof (sceneOk_beforeLoop deltaTime u1 u2 s Hok) as (Hnd & _).
      assert (Hb : scene (beforeLoop deltaTime u1 u2 s)
                   = sceneBase ++ meshIds (obstacles (beforeLoop deltaTime u1 u2 s))).
      { unfold beforeLoop.
        destruct (boundaryChecks_beside (seedPhysics s))
          as (_ & _ & _ & Bo & _ & Bs & _).
        change (obstacles (seedPhysics s)) with (obstacles s) in Bo.
        change (scene (seedPhysics s)) with (scene s) in Bs.
        destruct (obstacleSpawning_cases deltaTime u1 u2 (boundaryChecks (seedPhysics s)))
          as [(Eo & Es & _) | (o & Eo & Es & _)]; rewrite Eo, Es, Bo, Bs, Hex.
        - reflexivity.
        - rewrite meshIds_app, <- app_assoc. reflexivity. }
      rewrite Hb in Hnd |- *. apply sceneCleanup_exact, Hnd.
    + destruct (animate_idle deltaTime u1 u2 s Hrun) as (_ & _ & _ & _ & _ & Ho & Hs & _).
      rewrite Ho, Hs. exact Hex.
Qed.

Lemma sceneExact_run es :
  forall s, wellFormed s -> sceneExact s -> sceneExact (run es s).
Proof.
  induction es as [| e es IH]; intros s Hwf Hex; [exact Hex |].
  apply IH; [apply wellFormed_step, Hwf | apply sceneExact_step; assumption].
Qed.

(** X4.  In every state the game reaches, the scene holds exactly the two
    lights, the seed and, pair by pair in the order of the obstacles list,
    the top and the bottom mesh of each listed pair: a mesh enters the scene
    with its pair and leaves it with its pair. *)
Theorem scene_holds_listed_pairs (es : list Event) :
  let s := run es initialState in
  scene s = [AmbientLight; DirectionalLight; Seed] ++ meshIds (obstacles s) /\
  length (scene s) = (3 + 2 * length (obstacles s))%nat /\
  NoDup (scene s).
Proof.
  intros s.
  assert (Hwf : wellFormed s)
    by apply (wellFormed_run es initialState wellFormed_initialState).
  assert (Hex : sceneExact s).
  { apply sceneExact_run; [apply wellFormed_initialState | reflexivity]. }
  split; [exact Hex |]. split; [| apply Hwf].
  rewrite Hex, length_app. cbn [length sceneBase].
  unfold meshIds. clear. induction (obstacles s) as [| o l IH]; [reflexivity |].
  cbn [flat_map length app]. lia.
Qed.

(** ** Spawning, again *)

Lemma spawn_heights u1 u2 :
  0 <= u1 < 1 -> 0 <= u2 < 1 ->
  let gapHeight := randFloat obstacleMinGap obstacleMaxGap u1 in
  let gapCenterY :=
    randFloat (viewHeight / -2 + gapHeight / 2 + 1.0)
              (viewHeight / 2 - gapHeight / 2 - 1.0) u2 in
  obstacleMinGap <= gapHeight <= obstacleMaxGap /\
  1 <= viewHeight / 2 - (gapCenterY + gapHeight / 2) <= 16 /\
  1 <= viewHeight / 2 + (gapCenterY - gapHeight / 2) <= 16.
Proof.
  intros Hu1 Hu2 gapHeight gapCenterY.
  assert (Hgap : obstacleMinGap <= gapHeight <= obstacleMaxGap).
  { apply (randFloat_range obstacleMinGap obstacleMaxGap u1); [| exact Hu1].
    unfold_constants. lra. }
  assert (Hcentre : viewHeight / -2 + gapHeight / 2 + 1.0 <= gapCenterY
                    <= viewHeight / 2 - gapHeight / 2 - 1.0).
  { apply randFloat_range; [| exact Hu2]. unfold_constants. qlra. }
  clearbody gapCenterY gapHeight.
  split; [exact Hgap |]. unfold_constants. split; split; qlra.
Qed.

(** The pair a call of [createObstacle] adds, under draws in range. *)
Lemma createObstacle_spawns u1 u2 s :
  0 <= u1 < 1 -> 0 <= u2 < 1 ->
  exists o,
    obstacles (createObstacle u1 u2 s) = obstacles s ++ [o] /\
    x_ (position (top o)) = obstacleSpawnX /\
    x_ (position (bottom o)) = obstacleSpawnX /\
    passed o = false.
Proof.
  intros Hu1 Hu2.
  destruct (spawn_heights u1 u2 Hu1 Hu2) as (Hgap & Htop & Hbottom).
  cbn zeta in Hgap, Htop, Hbottom.
  unfold createObstacle. cbn zeta.
  set (gapHeight := randFloat obstacleMinGap obstacleMaxGap u1) in *.
  set (gapCenterY := randFloat _ _ u2) in *.
  set (topHeight := viewHeight / 2 - (gapCenterY + gapHeight / 2)) in *.
  set (bottomHeight := viewHeight / 2 + (gapCenterY - gapHeight / 2)) in *.
  assert (Hguard : (topHeight <=? 0) || (bottomHeight <=? 0) = false).
  { apply orb_false_iff. split; apply Qleb_gt; lra. }
  rewrite Hguard.
  eexists. cbn [obstacles set_obstacles]. split; [reflexivity |].
  repeat split.
Qed.

(** Its shape. *)
Lemma createObstacle_shape u1 u2 s :
  0 <= u1 < 1 -> 0 <= u2 < 1 ->
  exists o,
    obstacles (createObstacle u1 u2 s) = obstacles s ++ [o] /\ pairGeometry o.
Proof.
  intros Hu1 Hu2.
  destruct (spawn_heights u1 u2 Hu1 Hu2) as (Hgap & Htop & Hbottom).
  cbn zeta in Hgap, Htop, Hbottom.
  unfold createObstacle. cbn zeta.
  set (gapHeight := randFloat obstacleMinGap obstacleMaxGap u1) in *.
  set (gapCenterY := randFloat _ _ u2) in *.
  set (topHeight := viewHeight / 2 - (gapCenterY + gapHeight / 2)) in *.
  set (bottomHeight := viewHeight / 2 + (gapCenterY - gapHeight / 2)) in *.
  assert (Hguard : (topHeight <=? 0) || (bottomHeight <=? 0) = false).
  { apply orb_false_iff. split; apply Qleb_gt; lra. }
  rewrite Hguard.
  destruct (fround_half_extent topHeight Htop) as [Ft Et].
  destruct (fround_half_extent bottomHeight Hbottom) as [Fb Eb].
  apply Qabs_Qle_condition in Et, Eb.
  pose proof fround_half_width as Ew.
  eexists. cbn [obstacles set_obstacles]. split; [reflexivity |].
  unfold pairGeometry, boxGeometryBox.
  cbn [top bottom position boundingBox setPosition newMesh y_ x_ z_ min max].
  set (topHalf := fround (topHeight / 2)) in *.
  set (bottomHalf := fround (bottomHeight / 2)) in *.
  set (widthHalf := fround (obstacleWidth / 2)) in *.
  clearbody topHalf bottomHalf widthHalf gapCenterY gapHeight.
  subst topHeight bottomHeight. unfold edgeTolerance in *. unfold_constants.
  split; [apply Qabs_Qle_condition; split; qlra |].
  split; [apply Qabs_Qle_condition; split; qlra |].
  split; [lra |]. split; [lra |]. split; [split; qlra |].
  split; [qlra |]. split; [qlra |]. split; qlra.
Qed.

Lemma obstacleSpawning_spawns deltaTime u1 u2 s :
  spawnInterval <= timeSinceLastSpawn s + deltaTime ->
  0 <= u1 < 1 -> 0 <= u2 < 1 ->
  let s' := obstacleSpawning deltaTime u1 u2 s in
  exists o,
    obstacles s' = obstacles s ++ [o] /\
    x_ (position (top o)) = obstacleSpawnX /\
    x_ (position (bottom o)) = obstacleSpawnX /\
    passed o = false /\
    timeSinceLastSpawn s' = 0.
Proof.
  intros Htime Hu1 Hu2. unfold obstacleSpawning. cbn zeta.
  cbn [timeSinceLastSpawn set_timeSinceLastSpawn].
  apply Qgeb_ge in Htime. rewrite Htime.
  destruct (createObstacle_spawns u1 u2
              (set_timeSinceLastSpawn s (timeSinceLastSpawn s + deltaTime)) Hu1 Hu2)
    as (o & Ho & Hxt & Hxb & Hp).
  set (s1 := createObstacle _ _ _) in *.
  exists o. cbn [obstacles timeSinceLastSpawn set_timeSinceLastSpawn] in *.
  repeat (split; [assumption |]). reflexivity.
Qed.

Lemma obstacleSpawning_waits deltaTime u1 u2 s :
  timeSinceLastSpawn s + deltaTime < spawnInterval ->
  obstacleSpawning deltaTime u1 u2 s
  = set_timeSinceLastSpawn s (timeSinceLastSpawn s + deltaTime).
Proof.
  intros Htime. unfold obstacleSpawning. cbn zeta.
  cbn [timeSinceLastSpawn set_timeSinceLastSpawn].
  apply Qgeb_lt in Htime. rewrite Htime. reflexivity.
Qed.

(** Under draws in range a spawning phase adds nothing or a well-shaped
    pair at the spawn abscissa. *)
Lemma obstacleSpawning_shaped deltaTime u1 u2 s :
  0 <= u1 < 1 -> 0 <= u2 < 1 ->
  let s' := obstacleSpawning deltaTime u1 u2 s in
  obstacles s' = obstacles s \/
  exists o, obstacles s' = obstacles s ++ [o] /\ pairGeometry o.
Proof.
  intros Hu1 Hu2 s'.
  destruct (Qlt_le_dec (timeSinceLastSpawn s + deltaTime) spawnInterval) as [H | H].
  - left. subst s'. rewrite (obstacleSpawning_waits _ _ _ _ H). reflexivity.
  - right. subst s'. unfold obstacleSpawning. cbn zeta.
    cbn [timeSinceLastSpawn set_timeSinceLastSpawn].
    apply Qgeb_ge in H. rewrite H.
    destruct (createObstacle_shape u1 u2
                (set_timeSinceLastSpawn s (timeSinceLastSpawn s + deltaTime)) Hu1 Hu2)
      as (o & Ho & Hg).
    set (s1 := createObstacle _ _ _) in *.
    exists o. cbn [obstacles set_timeSinceLastSpawn] in *. auto.
Qed.

(** The timer after a running frame is the timer the spawning phase left. *)
Lemma animate_running_timer deltaTime u1 u2 s :
  running s = true ->
  timeSinceLastSpawn (animate deltaTime u1 u2 s)
  = timeSinceLastSpawn (beforeLoop deltaTime u1 u2 s).
Proof.
  intros Hrun. rewrite (animate_running deltaTime u1 u2 s Hrun).
  unfold afterPhysics, beforeLoop. cbn zeta.
  set (b := obstacleSpawning deltaTime u1 u2 (boundaryChecks (seedPhysics s))).
  destruct (obstacleLoop_pass deltaTime b) as (_ & _ & _ & Lb).
  assert (Lt : timeSinceLastSpawn (obstacleLoop deltaTime (length (obstacles b)) b)
               = timeSinceLastSpawn b).
  { revert Lb. unfold besideLoop. intros Lb. injection Lb. auto. }
  set (l := obstacleLoop deltaTime (length (obstacles b)) b) in *.
  rewrite <- Lt.
  unfold seedRotation, handleGameOverState, collisionCheck.
  destruct (negb (gameOver l) && checkCollisions l);
    cbn [gameOver set_gameOver];
    repeat match goal with
    | |- context [if ?c then _ else _] => destruct c
    end; reflexivity.
Qed.

(** ** A game not yet started *)

Lemma pristine_step s e :
  uiConsistent s -> pristine s -> pristine (step s e).
Proof.
  intros Hui Hp. destruct e as [| deltaTime u1 u2]; cbn [step].
  - unfold handleInput. destruct (gameOver s).
    + intros _. repeat split.
    + unfold pristine.
      destruct (gameStarted s) eqn:E;
        cbn [negb gameStarted set_seedVelocityY set_startMessage set_gameStarted];
        intros H; congruence.
  - destruct (running s) eqn:Hrun.
    + destruct (animate_running_summary deltaTime u1 u2 s Hrun)
        as (_ & _ & _ & _ & _ & _ & Hst & _).
      intros H. congruence.
    + rewrite (animate_idle_same deltaTime u1 u2 s Hui Hrun). exact Hp.
Qed.

Lemma pristine_reachable es : pristine (run es initialState).
Proof.
  assert (H : forall s, uiConsistent s -> pristine s -> pristine (run es s)).
  { induction es as [| e es IH]; intros s Hui Hp; [exact Hp |].
    apply IH.
    - destruct e; [apply uiConsistent_handleInput | apply uiConsistent_animate]; exact Hui.
    - apply pristine_step; assumption. }
  apply H; [apply uiConsistent_resetGame | intros _; repeat split].
Qed.

(** X5.  The tap that starts a game, first or after a reset, is followed
    by a frame that spawns a pair at once, whatever its clock delta (not
    negative) and its draws: [resetGame] leaves the spawn timer at the
    spawn interval.  The list held no pair before; the pair is at the spawn
    abscissa and unpassed when the loop of that frame starts, and the frame
    leaves the timer at 0. *)
Theorem first_frame_spawns (es : list Event) (deltaTime u1 u2 : Q) :
  let s := run es initialState in
  gameStarted s = false ->
  0 <= deltaTime -> 0 <= u1 < 1 -> 0 <= u2 < 1 ->
  let s1 := handleInput s in
  running s1 = true /\
  obstacles s1 = [] /\
  (exists o,
     obstacles (beforeLoop deltaTime u1 u2 s1) = [o] /\
     x_ (position (top o)) = obstacleSpawnX /\
     x_ (position (bottom o)) = obstacleSpawnX /\
     passed o = false) /\
  timeSinceLastSpawn (animate deltaTime u1 u2 s1) = 0.
Proof.
  intros s Hst Hdt Hu1 Hu2 s1.
  destruct (uiConsistent_reachable es) as (_ & _ & _ & _ & Hov). fold s in Hov.
  assert (Hover : gameOver s = false).
  { destruct (gameOver s); [| reflexivity]. rewrite Hov in Hst; [discriminate | reflexivity]. }
  destruct (pristine_reachable es Hst) as (_ & Ho & _ & _ & Ht). fold s in Ho, Ht.
  assert (Hs1 : s1 = set_seedVelocityY
                       (set_startMessage (set_gameStarted s true) "none") surgeStrength).
  { unfold s1, handleInput. rewrite Hover, Hst. reflexivity. }
  assert (Hrun : running s1 = true).
  { rewrite Hs1. unfold running. cbn [gameStarted gameOver set_seedVelocityY
      set_startMessage set_gameStarted]. rewrite Hover. reflexivity. }
  assert (Ho1 : obstacles s1 = []) by (rewrite Hs1; exact Ho).
  assert (Ht1 : timeSinceLastSpawn s1 = spawnInterval) by (rewrite Hs1; exact Ht).
  destruct (boundaryChecks_beside (seedPhysics s1)) as (_ & _ & _ & Bo & Bt & _).
  change (obstacles (seedPhysics s1)) with (obstacles s1) in Bo.
  change (timeSinceLastSpawn (seedPhysics s1)) with (timeSinceLastSpawn s1) in Bt.
  destruct (obstacleSpawning_spawns deltaTime u1 u2 (boundaryChecks (seedPhysics s1)))
    as (o & Eo & Hxt & Hxb & Hp & Et); try assumption.
  { rewrite Bt, Ht1. lra. }
  fold (beforeLoop deltaTime u1 u2 s1) in Eo, Et.
  split; [exact Hrun |]. split; [exact Ho1 |].
  split.
  - exists o. rewrite Eo, Bo, Ho1. repeat (split; [assumption || reflexivity |]).
    exact Hp.
  - rewrite (animate_running_timer deltaTime u1 u2 s1 Hrun). exact Et.
Qed.

(** ** The shape of the pairs *)

Lemma visit_geometry seedX deltaTime o :
  pairGeometry o -> pairGeometry (visit seedX deltaTime o).
Proof.
  unfold visit. destruct (scoringCheck seedX (moved deltaTime o)); intros H; exact H.
Qed.

Lemma Forall_survivors (P : Obstacle -> Prop) seedX deltaTime l :
  (forall o, P o -> P (visit seedX deltaTime o)) ->
  Forall P l -> Forall P (survivors seedX deltaTime l).
Proof.
  intros Hv Hl. apply Forall_forall. intros o' Ho'.
  apply list_elem_of_In, In_survivors in Ho' as (_ & o & Ho & ->).
  apply Hv. rewrite Forall_forall in Hl. apply Hl, list_elem_of_In, Ho.
Qed.

Lemma handleInput_obstacles s :
  obstacles (handleInput s) = [] \/ obstacles (handleInput s) = obstacles s.
Proof.
  unfold handleInput. destruct (gameOver s); [left; reflexivity | right].
  destruct (gameStarted s); reflexivity.
Qed.

Lemma geometry_step s e :
  drawsInRange e ->
  Forall pairGeometry (obstacles s) -> Forall pairGeometry (obstacles (step s e)).
Proof.
  intros He Hl. destruct e as [| deltaTime u1 u2]; cbn [step].
  - destruct (handleInput_obstacles s) as [-> | ->]; [constructor | exact Hl].
  - destruct He as [Hu1 Hu2]. destruct (running s) eqn:Hrun.
    + destruct (animate_running_summary deltaTime u1 u2 s Hrun) as (_ & _ & Ho & _).
      rewrite Ho. apply Forall_survivors; [intros o; apply visit_geometry |].
      unfold beforeLoop.
      destruct (boundaryChecks_beside (seedPhysics s)) as (_ & _ & _ & Bo & _).
      change (obstacles (seedPhysics s)) with (obstacles s) in Bo.
      destruct (obstacleSpawning_shaped deltaTime u1 u2
                  (boundaryChecks (seedPhysics s)) Hu1 Hu2) as [E | (o & E & Hg)];
        rewrite E, Bo; [exact Hl |].
      apply Forall_app. split; [exact Hl | constructor; [exact Hg | constructor]].
    + destruct (animate_idle deltaTime u1 u2 s Hrun) as (_ & _ & _ & _ & _ & Ho & _).
      rewrite Ho. exact Hl.
Qed.

(** X6.  As long as the draws of [Math.random()] are in [[0, 1)], every
    pair of the list, in every state the game reaches and wherever the
    frames have moved it, has the shape it was spawned with: the top solid
    reaches up to [viewHeight/2] and the bottom solid down to
    [-viewHeight/2], to within a millionth of a unit (the geometry keeps
    the half heights in single precision); each is at least 1 high and
    exactly [obstacleWidth] wide and deep; and the gap between them is
    between 4 and 5.5 high, to within a millionth. *)
Theorem pairs_keep_their_shape (es : list Event) :
  Forall drawsInRange es ->
  Forall pairGeometry (obstacles (run es initialState)).
Proof.
  assert (H : forall s, Forall pairGeometry (obstacles s) -> Forall drawsInRange es ->
                        Forall pairGeometry (obstacles (run es s))).
  { induction es as [| e es IH]; intros s Hs Hall; [exact Hs |].
    apply Forall_cons_1 in Hall as [He Hall].
    apply IH; [apply geometry_step; assumption | exact Hall]. }
  apply H. constructor.
Qed.

(** ** The track of the pairs *)

Lemma ascending_snoc l o :
  ascending l ->
  Forall (fun p => x_ (position (top p)) <= x_ (position (top o))) l ->
  ascending (l ++ [o]).
Proof.
  induction l as [| a l IH]; cbn [ascending app]; intros Ha Hl.
  - split; [constructor | exact I].
  - destruct Ha as [Ha1 Ha2]. apply Forall_cons_1 in Hl as [Hl1 Hl2].
    split; [| apply IH; assumption].
    apply Forall_app. split; [exact Ha1 | constructor; [exact Hl1 | constructor]].
Qed.

Lemma ascending_survivors seedX deltaTime l :
  ascending l -> ascending (survivors seedX deltaTime l).
Proof.
  induction l as [| o l IH]; [intros _; exact I |].
  cbn [ascending]. intros [Ho Hl]. rewrite survivors_cons.
  destruct (cleanupCheck (visit seedX deltaTime o)); cbn [app]; [apply IH, Hl |].
  cbn [ascending]. split; [| apply IH, Hl].
  apply Forall_forall. intros p' Hp'.
  apply list_elem_of_In, In_survivors in Hp' as (_ & p & Hp & ->).
  rewrite Forall_forall in Ho. specialize (Ho p (proj2 (list_elem_of_In _ _) Hp)).
  rewrite (proj1 (visit_x seedX deltaTime o)), (proj1 (visit_x seedX deltaTime p)).
  lra.
Qed.

Lemma track_step s e :
  steadyClock e ->
  Forall onTrack (obstacles s) /\ ascending (obstacles s) ->
  Forall onTrack (obstacles (step s e)) /\ ascending (obstacles (step s e)).
Proof.
  intros He [Ht Ha]. destruct e as [| deltaTime u1 u2]; cbn [step].
  - destruct (handleInput_obstacles s) as [-> | ->];
      [split; [constructor | exact I] | auto].
  - cbn [steadyClock] in He. destruct (running s) eqn:Hrun.
    + destruct (animate_running_summary deltaTime u1 u2 s Hrun) as (_ & _ & Ho & _).
      rewrite Ho.
      set (l := obstacles (beforeLoop deltaTime u1 u2 s)).
      assert (Hl : Forall (fun o => x_ (position (top o)) <= obstacleSpawnX) l
                   /\ ascending l).
      { unfold l, beforeLoop.
        destruct (boundaryChecks_beside (seedPhysics s)) as (_ & _ & _ & Bo & _).
        change (obstacles (seedPhysics s)) with (obstacles s) in Bo.
        assert (Hup : Forall (fun o => x_ (position (top o)) <= obstacleSpawnX)
                             (obstacles s)).
        { eapply Forall_impl; [exact Ht |]. intros o [_ H]. exact H. }
        destruct (obstacleSpawning_cases deltaTime u1 u2 (boundaryChecks (seedPhysics s)))
          as [(Eo & _) | (o & Eo & _ & _ & _ & _ & Hxt & _)]; rewrite Eo, Bo.
        - auto.
        - split.
          + apply Forall_app. split; [exact Hup |].
            constructor; [rewrite Hxt; lra | constructor].
          + apply ascending_snoc; [exact Ha |]. rewrite Hxt. exact Hup. }
      destruct Hl as [Hup Hasc].
      split; [| apply ascending_survivors, Hasc].
      apply Forall_forall. intros o' Ho'.
      apply list_elem_of_In, In_survivors in Ho' as (Hkeep & o & Hin & ->).
      unfold onTrack. split.
      * apply Qltb_ge. exact Hkeep.
      * rewrite Forall_forall in Hup.
        specialize (Hup o (proj2 (list_elem_of_In _ _) Hin)).
        rewrite (proj1 (visit_x _ deltaTime o)).
        unfold obstacleSpeed in *.
        assert (0 <= 3.0 * deltaTime) by (apply Qmult_le_0_compat; lra).
        lra.
    + destruct (animate_idle deltaTime u1 u2 s Hrun) as (_ & _ & _ & _ & _ & Ho & _).
      rewrite Ho. auto.
Qed.

(** X7.  If no frame sees a negative clock delta, then in every state
    the game reaches every listed pair is between the despawn line and the
    spawn abscissa, [-6 <= x <= 6], and the list goes from the leftmost pair
    to the rightmost: the oldest pair comes first and is the first to be
    cleaned up. *)
Theorem pairs_stay_on_track (es : list Event) :
  Forall steadyClock es ->
  let s := run es initialState in
  Forall (fun o => -6 <= x_ (position (top o)) <= 6) (obstacles s) /\
  ascending (obstacles s).
Proof.
  assert (H : forall s, Forall onTrack (obstacles s) /\ ascending (obstacles s) ->
                        Forall steadyClock es ->
                        Forall onTrack (obstacles (run es s)) /\
                        ascending (obstacles (run es s))).
  { induction es as [| e es IH]; intros s Hs Hall; [exact Hs |].
    apply Forall_cons_1 in Hall as [He Hall].
    apply IH; [apply track_step; assumption | exact Hall]. }
  intros Hall s.
  destruct (H initialState) as [Ht Ha]; [split; [constructor | exact I] | exact Hall |].
  split; [| exact Ha].
  eapply Forall_impl; [exact Ht |].
  intros o [Hlo Hhi]. revert Hlo Hhi. unfold_constants. intros Hlo Hhi. split; qlra.
Qed.

(** ** The integrator *)

Lemma boundaryChecks_motion s :
  (y_ (position (seed (boundaryChecks s))) = y_ (position (seed s)) /\
   seedVelocityY (boundaryChecks s) = seedVelocityY s /\
   seedMinY <= y_ (position (seed s)) <= seedMaxY) \/
  (seedVelocityY (boundaryChecks s) = 0 /\
   (y_ (position (seed s)) < seedMinY /\ y_ (position (seed (boundaryChecks s))) = seedMinY
    \/ seedMaxY < y_ (position (seed s))
       /\ y_ (position (seed (boundaryChecks s))) = seedMaxY)).
Proof.
  unfold boundaryChecks.
  destruct (_ <? seedMinY) eqn:Elo; [| destruct (_ >? seedMaxY) eqn:Ehi].
  - right. apply Qltb_lt in Elo. split; [reflexivity | left; split; [exact Elo | reflexivity]].
  - right. apply Qgtb_gt in Ehi. split; [reflexivity | right; split; [exact Ehi | reflexivity]].
  - left. apply Qltb_ge in Elo. apply Qgtb_le in Ehi. auto.
Qed.

(** In exact arithmetic the seed physics keeps the energy. *)
Lemma seedPhysics_energy s : energy (seedPhysics s) == energy s.
Proof.
  unfold energy.
  destruct (seedPhysics_fields s) as (Hv & Hy & _).
  rewrite Hv, Hy. ring.
Qed.

Lemma energyBound_value : energyBound == 0.42075.
Proof. reflexivity. Qed.

(** Within bounds and with its energy bounded the seed is not fast. *)
Lemma bounded_energy_speed y v :
  seedMinY <= y ->
  2 * gravity * y + v * v - gravity * v <= energyBound ->
  - (797 # 1000) <= v.
Proof.
  intros Hy He. rewrite energyBound_value in He.
  unfold seedMinY, viewHeight, seedRadius, gravity in *.
  unfold Qdiv in *. cbn [Qinv Qnum Qden] in *.
  destruct (Qlt_le_dec v (- (797 # 1000))) as [Hlt | Hge]; [| exact Hge].
  exfalso. nra.
Qed.

(** The invariant of the integrator: within bounds, not faster upwards
    than the surge, and of bounded energy. *)
Lemma integrator_step s e :
  inBounds s /\ seedVelocityY s <= surgeStrength /\ energy s <= energyBound ->
  inBounds (step s e) /\ seedVelocityY (step s e) <= surgeStrength /\
  energy (step s e) <= energyBound.
Proof.
  intros (Hb & Hv & He). destruct e as [| deltaTime u1 u2]; cbn [step].
  - unfold handleInput. destruct (gameOver s).
    + split; [apply inBounds_zero |]. split; [cbn; unfold surgeStrength; lra |].
      unfold energy. cbn. rewrite energyBound_value. unfold gravity. lra.
    + assert (Hgoal : forall t, inBounds t -> position (seed t) = position (seed s) ->
                inBounds (set_seedVelocityY t surgeStrength) /\
                seedVelocityY (set_seedVelocityY t surgeStrength) <= surgeStrength /\
                energy (set_seedVelocityY t surgeStrength) <= energyBound).
      { intros t Ht Hp. split; [exact Ht |]. split; [cbn; lra |].
        unfold energy. cbn [seedVelocityY seed set_seedVelocityY]. rewrite Hp.
        destruct Hb as [_ Hhi]. rewrite energyBound_value.
        revert Hhi. unfold_constants. intros Hhi. qlra. }
      destruct (gameStarted s); apply Hgoal; (exact Hb || reflexivity).
  - destruct (running s) eqn:Hrun.
    + destruct (animate_running_summary deltaTime u1 u2 s Hrun) as (Hp & Hv' & _).
      unfold inBounds, energy. rewrite Hp, Hv'.
      split; [apply boundaryChecks_inBounds |].
      pose proof (seedPhysics_energy s) as Hen. unfold energy in Hen.
      destruct (seedPhysics_fields s) as (Hv1 & _).
      destruct (boundaryChecks_motion (seedPhysics s))
        as [(Ey & Ev & _) | (Ev & [[_ Ey] | [_ Ey]])]; rewrite Ey, Ev.
      * split; [rewrite Hv1; unfold gravity; lra |].
        rewrite Hen. exact He.
      * split; [unfold surgeStrength; lra |].
        rewrite energyBound_value. unfold_constants. qlra.
      * split; [unfold surgeStrength; lra |].
        rewrite energyBound_value. unfold_constants. qlra.
    + destruct (animate_idle deltaTime u1 u2 s Hrun) as (Hp & Hv' & _).
      unfold inBounds, energy. rewrite Hp, Hv'. auto.
Qed.

Lemma integrator_reachable es :
  let s := run es initialState in
  inBounds s /\ seedVelocityY s <= surgeStrength /\ energy s <= energyBound.
Proof.
  assert (H : forall s,
             inBounds s /\ seedVelocityY s <= surgeStrength /\ energy s <= energyBound ->
             inBounds (run es s) /\ seedVelocityY (run es s) <= surgeStrength /\
             energy (run es s) <= energyBound).
  { induction es as [| e es IH]; intros s Hs; [exact Hs |].
    apply IH, integrator_step, Hs. }
  apply H. split; [apply inBounds_zero |].
  split; [cbn; unfold surgeStrength; lra |].
  unfold energy. cbn. rewrite energyBound_value. unfold gravity. lra.
Qed.

(** X8.  The seed is never fast.  In every state the game reaches its
    vertical velocity is between -0.8 and the surge 0.45, and no frame
    lifts the seed by more than the surge or drops it by more than 0.815.
    (In exact arithmetic the physics step keeps [2 g y + v^2 - g v], so
    that a fall from the ceiling to the floor ends slower than 0.797, and
    a frame lifts the seed by 0.435 at most: the bounds stated leave a
    margin that the rounding of the doubles does not use up.) *)
Theorem seed_speed_bounded (es : list Event) :
  let s := run es initialState in
  - (4 # 5) <= seedVelocityY s <= surgeStrength /\
  forall deltaTime u1 u2,
    - (4 # 5) - gravity
    <= y_ (position (seed (animate deltaTime u1 u2 s))) - y_ (position (seed s))
    <= surgeStrength.
Proof.
  intros s.
  destruct (integrator_reachable es) as (Hb & Hv & He). fold s in Hb, Hv, He.
  assert (Hlow : - (797 # 1000) <= seedVelocityY s).
  { apply (bounded_energy_speed (y_ (position (seed s)))); [apply Hb | exact He]. }
  split; [split; [lra | exact Hv] |].
  intros deltaTime u1 u2.
  destruct (running s) eqn:Hrun.
  - destruct (animate_running_summary deltaTime u1 u2 s Hrun) as (Hp & _).
    rewrite Hp.
    destruct (seedPhysics_fields s) as (_ & Hy & _).
    destruct Hb as [Hlo Hhi].
    destruct (boundaryChecks_motion (seedPhysics s))
      as [(Ey & _ & _) | (_ & [[Hout Ey] | [Hout Ey]])]; rewrite Ey;
      rewrite Hy in *; revert Hlo Hhi Hv Hlow; unfold_constants; intros; qlra.
  - destruct (animate_idle deltaTime u1 u2 s Hrun) as (Hp & _).
    rewrite Hp. unfold_constants. lra.
Qed.

(** ** Reset and restart *)

Lemma seedShape_boundaryChecks s :
  seedShape (seed (boundaryChecks s)) = seedShape (seed s).
Proof.
  unfold boundaryChecks.
  destruct (_ <? seedMinY); [reflexivity |]. destruct (_ >? seedMaxY); reflexivity.
Qed.

Lemma seedShape_handleGameOverState s :
  seedShape (seed (handleGameOverState s)) = seedShape (seed s).
Proof. unfold handleGameOverState. destruct (gameOver s); reflexivity. Qed.

Lemma seedShape_seedRotation deltaTime s :
  seedShape (seed (seedRotation deltaTime s)) = seedShape (seed s).
Proof. unfold seedRotation. destruct (visible (seed s)); reflexivity. Qed.

Lemma seedShape_animate deltaTime u1 u2 s :
  seedShape (seed (animate deltaTime u1 u2 s)) = seedShape (seed s).
Proof.
  destruct (running s) eqn:Hrun.
  - rewrite (animate_running deltaTime u1 u2 s Hrun). unfold afterPhysics. cbn zeta.
    set (c := boundaryChecks (seedPhysics s)).
    destruct (obstacleSpawning_beside deltaTime u1 u2 c) as (Bseed & _).
    set (b := obstacleSpawning deltaTime u1 u2 c) in *.
    destruct (obstacleLoop_pass deltaTime b) as (_ & _ & _ & Lb).
    apply besideLoop_fields in Lb as (Lseed & _).
    set (l := obstacleLoop deltaTime (length (obstacles b)) b) in *.
    destruct (collisionCheck_beside l) as (Kseed & _).
    rewrite seedShape_seedRotation, seedShape_handleGameOverState, Kseed, Lseed, Bseed.
    unfold c. rewrite seedShape_boundaryChecks. reflexivity.
  - unfold running in Hrun. unfold animate. rewrite Hrun.
    destruct (gameOver s).
    + destruct (String.eqb (gameOverMessage s) "block"); cbn [negb];
        destruct (visible (seed _)); reflexivity.
    + destruct (String.eqb (startMessage s) "block"); reflexivity.
Qed.

Lemma seedShape_handleInput s :
  seedShape (seed (handleInput s)) = seedShape (seed s).
Proof.
  unfold handleInput. destruct (gameOver s); [reflexivity |].
  destruct (gameStarted s); reflexivity.
Qed.

Lemma seedShape_reachable es :
  seedShape (seed (run es initialState))
  = ((- viewWidth) / 3, 0, sphereGeometryBox seedRadius, Seed).
Proof.
  assert (H : forall s, seedShape (seed (run es s)) = seedShape (seed s)).
  { induction es as [| e es IH]; intros s; [reflexivity |].
    cbn [run fold_left]. unfold run in IH. rewrite IH.
    destruct e; [apply seedShape_handleInput | apply seedShape_animate]. }
  rewrite H. reflexivity.
Qed.

Lemma resetGame_logic es :
  logic (resetGame (run es initialState)) = logic initialState.
Proof.
  set (s := run es initialState).
  assert (Hwf : wellFormed s)
    by apply (wellFormed_run es initialState wellFormed_initialState).
  assert (Hex : sceneExact s).
  { apply sceneExact_run; [apply wellFormed_initialState | reflexivity]. }
  pose proof (seedShape_reachable es) as Hshape. fold s in Hshape.
  unfold seedShape in Hshape. injection Hshape as Hx Hz Hbox Hid.
  assert (Hscene : removeAllFromScene (obstacles s) (scene s) = sceneBase).
  { rewrite Hex. apply removeAllFromScene_exact. rewrite <- Hex. apply Hwf. }
  assert (Hpos : setY (position (seed s)) 0 = Vec3 ((- viewWidth) / 3) 0 0).
  { unfold setY. rewrite Hx, Hz. reflexivity. }
  unfold logic.
  cbn [resetGame seed seedVelocityY gameStarted gameOver score obstacles
       timeSinceLastSpawn scene scoreElement startMessage gameOverMessage
       set_seed set_seedVelocityY set_score set_gameOver set_gameStarted
       set_timeSinceLastSpawn set_scene set_obstacles set_gameOverMessage
       set_startMessage position visible boundingBox id setPosition setVisible].
  rewrite Hscene, Hpos, Hbox, Hid. reflexivity.
Qed.

(** X9.  Resetting twice is resetting once.  From whatever state the game
    has reached, a reset leaves everything the game logic and the page
    read as it was when the script was loaded; only the seed's rotation and
    world matrix outlive it.  So at game over one input only resets: the
    game waits, unstarted, for a second input, which starts it with the
    surge.  While the game is not over a second input in a row changes
    nothing the first did not. *)
Theorem restart_is_a_fresh_start :
  (forall s : State, resetGame (resetGame s) = resetGame s) /\
  (forall es, logic (resetGame (run es initialState)) = logic initialState) /\
  (forall es,
     let s := run es initialState in
     gameOver s = true ->
     logic (handleInput s) = logic initialState /\
     gameStarted (handleInput s) = false /\
     running (handleInput (handleInput s)) = true /\
     seedVelocityY (handleInput (handleInput s)) = surgeStrength) /\
  (forall s : State, gameOver s = false -> handleInput (handleInput s) = handleInput s).
Proof.
  split; [reflexivity |]. split; [exact resetGame_logic |]. split.
  - intros es s Hover.
    assert (E : handleInput s = resetGame s) by (unfold handleInput; rewrite Hover; reflexivity).
    rewrite E. split; [apply resetGame_logic |]. repeat split.
  - intros s Hover. unfold handleInput. rewrite Hover.
    destruct (gameStarted s) eqn:E;
      cbn [negb gameOver gameStarted set_seedVelocityY set_startMessage set_gameStarted];
      rewrite ?Hover, ?E; reflexivity.
Qed.

End FurtherGameProperties.

(** * Further properties of the canvas script *)

Lemma gameLoop_floor s :
  Canvas.y s <= 960 -> Canvas.y (Canvas.gameLoop s) <= 960.
Proof.
  intros H. unfold Canvas.gameLoop. destruct (Canvas.running s); cbn [negb]; [| exact H].
  destruct (_ >? 960) eqn:E; cbn [Canvas.y].
  - lra.
  - apply Qgtb_le in E. exact E.
Qed.

Lemma gameLoop_keeps s :
  Canvas.gravity (Canvas.gameLoop s) = Canvas.gravity s /\
  Canvas.score (Canvas.gameLoop s) = Canvas.score s /\
  Canvas.running (Canvas.gameLoop s) = Canvas.running s /\
  Canvas.username (Canvas.gameLoop s) = Canvas.username s /\
  Canvas.pendingFrames (Canvas.gameLoop s)
  = (if Canvas.running s then S (Canvas.pendingFrames s) else Canvas.pendingFrames s).
Proof.
  unfold Canvas.gameLoop. destruct (Canvas.running s) eqn:E; cbn [negb]; [| auto].
  destruct (_ >? 960); cbn; auto.
Qed.

Lemma canvasSteady_gameLoop n t :
  Canvas.y t <= 960 -> Canvas.gravity t = 1.5 -> Canvas.score t = 0%nat ->
  Canvas.pendingFrames t = n -> Canvas.running t = true ->
  canvasSteady (S n) (Canvas.gameLoop t).
Proof.
  intros Hy Hg Hs Hp Hr.
  destruct (gameLoop_keeps t) as (Kg & Ks & Kr & _ & Kp).
  pose proof (gameLoop_floor t Hy) as Ky.
  unfold canvasSteady. rewrite Kg, Ks, Kr, Kp, Hr, Hp.
  repeat split; assumption.
Qed.

Lemma canvasSteady_step n s e :
  canvasSteady n s ->
  canvasSteady (if startsLoop e then S n else n) (Canvas.step s e).
Proof.
  intros (Hy & Hg & Hs & Hp & Hr).
  destruct e as [value | code |]; cbn [Canvas.step startsLoop].
  - destruct (Canvas.trim value) as [| c rest] eqn:Et.
    + rewrite (startClick_blank _ _ Et). repeat split; assumption.
    + rewrite startClick_named by (rewrite Et; discriminate).
      apply canvasSteady_gameLoop; assumption || reflexivity.
  - unfold Canvas.keydown. destruct (_ && _); repeat split; assumption.
  - unfold Canvas.animationFrame. rewrite Hp.
    destruct n as [| n]; [repeat split; assumption |].
    apply canvasSteady_gameLoop; try assumption; reflexivity.
Qed.

Lemma canvasSteady_run es :
  forall n s,
    canvasSteady n s ->
    canvasSteady (n + length (filter (fun e => startsLoop e = true) es)) (Canvas.run es s).
Proof.
  induction es as [| e es IH]; intros n s H.
  - cbn. rewrite Nat.add_0_r. exact H.
  - cbn [Canvas.run fold_left]. apply (canvasSteady_step n s e) in H.
    apply IH in H. unfold Canvas.run in H.
    destruct (startsLoop e) eqn:E.
    + rewrite filter_cons_True by assumption. cbn [length].
      replace (n + S (length (filter (fun e => startsLoop e = true) es)))%nat
        with (S n + length (filter (fun e => startsLoop e = true) es))%nat by lia.
      exact H.
    + rewrite filter_cons_False by congruence. exact H.
Qed.

Lemma canvasSteady_loaded introDisplay containerDisplay :
  canvasSteady 0 (Canvas.loaded introDisplay containerDisplay).
Proof. repeat split. cbn. lra. Qed.

(** X10.  In the canvas script the player never gets below the floor:
    whatever is clicked and pressed and however many frames pass, [y]
    stays at most 960; the gravity stays 1.5 and the score 0. *)
Theorem canvas_player_above_floor (es : list Canvas.Event)
  (introDisplay containerDisplay : string) :
  let s := Canvas.run es (Canvas.loaded introDisplay containerDisplay) in
  Canvas.y s <= 960 /\ Canvas.gravity s = 1.5 /\ Canvas.score s = 0%nat.
Proof.
  destruct (canvasSteady_run es 0 _ (canvasSteady_loaded introDisplay containerDisplay))
    as (Hy & Hg & Hs & _).
  auto.
Qed.

(** X11.  The canvas script keeps as many animation callbacks pending as
    start clicks with a username have been made: none before the first,
    one from then on, and one more for each further such click, each
    callback running the loop once per frame.  The script runs exactly
    when a callback is pending, and nothing stops it once it runs. *)
Theorem canvas_loops_never_stop (es : list Canvas.Event)
  (introDisplay containerDisplay : string) :
  let s := Canvas.run es (Canvas.loaded introDisplay containerDisplay) in
  Canvas.pendingFrames s = length (filter (fun e => startsLoop e = true) es) /\
  (Canvas.running s = true <-> (1 <= Canvas.pendingFrames s)%nat) /\
  (Canvas.running s = true ->
   forall es', Canvas.running (Canvas.run es' s) = true /\
               (Canvas.pendingFrames s <= Canvas.pendingFrames (Canvas.run es' s))%nat).
Proof.
  intros s.
  pose proof (canvasSteady_run es 0 _ (canvasSteady_loaded introDisplay containerDisplay))
    as Hs. fold s in Hs. cbn [Nat.add] in Hs.
  set (n := length (filter (fun e => startsLoop e = true) es)) in *.
  destruct Hs as (Hy & Hg & Hsc & Hp & Hr).
  split; [exact Hp |]. split.
  - rewrite Hr, Hp. destruct n; cbn; split; intros H; try lia; congruence.
  - intros Hrun es'.
    assert (Hs : canvasSteady n s) by (repeat split; assumption).
    destruct (canvasSteady_run es' n s Hs) as (_ & _ & _ & Hp' & Hr').
    rewrite Hr', Hp', Hp. rewrite Hr in Hrun.
    destruct n; [discriminate |]. split; [reflexivity | lia].
Qed.

(** X12.  In the canvas script the player jumps from the floor only: in
    every state the script reaches, a key press changes something only if
    the key is Space and the player stands on the floor, [y == 960], and
    then it sets the velocity to -25 and nothing else. *)
Theorem canvas_jump_from_floor_only (es : list Canvas.Event)
  (introDisplay containerDisplay code : string) :
  let s := Canvas.run es (Canvas.loaded introDisplay containerDisplay) in
  Canvas.keydown code s = s \/
  (code = "Space"%string /\ Canvas.y s == 960 /\
   Canvas.keydown code s =
   Canvas.MkState (Canvas.username s) (Canvas.running s) (Canvas.y s) (-25)
     (Canvas.gravity s) (Canvas.score s) (Canvas.introScreen s) (Canvas.gameContainer s)
     (Canvas.canvas s) (Canvas.pendingFrames s)).
Proof.
  intros s.
  destruct (canvasSteady_run es 0 _ (canvasSteady_loaded introDisplay containerDisplay))
    as (Hy & _). fold s in Hy.
  unfold Canvas.keydown.
  destruct (String.eqb code "Space") eqn:Ec; [| left; reflexivity].
  destruct (Canvas.y s >=? 960) eqn:Ey; [| left; reflexivity].
  right. apply String.eqb_eq in Ec. apply Qgeb_ge in Ey.
  split; [exact Ec |]. split; [lra | reflexivity].
Qed.

(** ** The username *)

Lemma trimStart_nil s :
  Canvas.trimStart s = [] <-> forallb Canvas.isWhiteSpace s = true.
Proof.
  induction s as [| c s IH]; cbn [Canvas.trimStart forallb]; [tauto |].
  destruct (Canvas.isWhiteSpace c); cbn [andb]; [exact IH |].
  split; discriminate.
Qed.

Lemma trimStart_head s c r :
  Canvas.trimStart s = c :: r -> Canvas.isWhiteSpace c = false.
Proof.
  induction s as [| a s IH]; cbn [Canvas.trimStart]; [discriminate |].
  destruct (Canvas.isWhiteSpace a) eqn:E; [exact IH |].
  intros H. injection H as <- _. exact E.
Qed.

Lemma trimStart_snoc l c :
  Canvas.isWhiteSpace c = false ->
  exists front, Canvas.trimStart (l ++ [c]) = front ++ [c].
Proof.
  intros Hc. induction l as [| a l IH]; cbn [app Canvas.trimStart].
  - rewrite Hc. exists []. reflexivity.
  - destruct (Canvas.isWhiteSpace a); [exact IH |].
    exists (a :: l). reflexivity.
Qed.

Lemma trimEnd_head c r :
  Canvas.isWhiteSpace c = false ->
  exists r', Canvas.trimEnd (c :: r) = c :: r'.
Proof.
  intros Hc. unfold Canvas.trimEnd. cbn [rev].
  destruct (trimStart_snoc (rev r) c Hc) as (front & ->).
  rewrite rev_app_distr. cbn. eauto.
Qed.

Lemma trimEnd_last t front c :
  Canvas.trimEnd t = front ++ [c] -> Canvas.isWhiteSpace c = false.
Proof.
  unfold Canvas.trimEnd. intros H.
  apply (f_equal (@rev N)) in H. rewrite rev_involutive, rev_app_distr in H.
  cbn in H. eapply trimStart_head, H.
Qed.

Lemma trim_nil s :
  Canvas.trim s = [] <-> forallb Canvas.isWhiteSpace s = true.
Proof.
  unfold Canvas.trim. rewrite <- trimStart_nil.
  destruct (Canvas.trimStart s) as [| c r] eqn:E.
  - split; reflexivity.
  - destruct (trimEnd_head c r (trimStart_head _ _ _ E)) as (r' & ->).
    split; discriminate.
Qed.

Lemma no_ink s :
  existsb inkUnit s = false <-> forallb Canvas.isWhiteSpace s = true.
Proof.
  induction s as [| c s IH]; cbn [existsb forallb]; [tauto |].
  unfold inkUnit at 1. destruct (Canvas.isWhiteSpace c); cbn [negb orb andb]; [exact IH |].
  split; discriminate.
Qed.

(** X13.  The start button starts the canvas script exactly when the
    username field holds a code unit that is not white space; what it
    stores as the username is the field trimmed, which neither begins nor
    ends with white space. *)
Theorem username_gate (value : Canvas.JSString) (s : Canvas.State) :
  (Canvas.trim value = [] <-> existsb inkUnit value = false) /\
  Canvas.username (Canvas.startClick value s) = Canvas.trim value /\
  (forall c rest, Canvas.trim value = c :: rest -> Canvas.isWhiteSpace c = false) /\
  (forall front c, Canvas.trim value = front ++ [c] -> Canvas.isWhiteSpace c = false) /\
  (forall introDisplay containerDisplay,
     Canvas.running (Canvas.startClick value (Canvas.loaded introDisplay containerDisplay))
     = existsb inkUnit value).
Proof.
  split; [rewrite trim_nil, no_ink; reflexivity |].
  split.
  { destruct (Canvas.trim value) as [| c r] eqn:E.
    - rewrite (startClick_blank _ _ E). reflexivity.
    - rewrite startClick_named by (rewrite E; discriminate).
      match goal with |- context [Canvas.gameLoop ?t] =>
        destruct (gameLoop_keeps t) as (_ & _ & _ & Hu & _) end.
      rewrite Hu, E. reflexivity. }
  split.
  { intros c rest H. unfold Canvas.trim in H.
    destruct (Canvas.trimStart value) as [| a r] eqn:E; [discriminate H |].
    pose proof (trimStart_head _ _ _ E) as Ha.
    destruct (trimEnd_head a r Ha) as (r' & Hr). rewrite Hr in H.
    injection H as <- _. exact Ha. }
  split; [intros front c; apply trimEnd_last |].
  intros introDisplay containerDisplay.
  destruct (Canvas.trim value) as [| c r] eqn:E.
  - rewrite (startClick_blank _ _ E). cbn.
    symmetry. apply no_ink, trim_nil, E.
  - rewrite startClick_named by (rewrite E; discriminate).
    match goal with |- context [Canvas.gameLoop ?t] =>
      destruct (gameLoop_keeps t) as (_ & _ & Hr & _) end.
    rewrite Hr. cbn.
    destruct (existsb inkUnit value) eqn:Ex; [reflexivity |].
    apply no_ink, trim_nil in Ex. congruence.
Qed.

(** * Further properties: the camera *)

(** X14.  After [resizeRenderer] on a container of positive height and
    any width, the view is centred, 16 world units high, and as wide as the
    container's aspect ratio makes it; a pair is spawned wholly to the right
    of the view, and is still wholly to the left of it when it is cleaned
    up, exactly if the container is at most 21/32 as wide as it is high, as
    with the 9/16 the camera is built with. *)
Theorem resize_keeps_the_view (width height : Q) (c : OrthographicCamera.t) :
  0 < height -> 0 <= width ->
  let c' := resizeRenderer width height c in
  OrthographicCamera.top c' - OrthographicCamera.bottom c' == viewHeight /\
  OrthographicCamera.right c' - OrthographicCamera.left c'
    == viewHeight * (width / height) /\
  OrthographicCamera.left c' == - OrthographicCamera.right c' /\
  OrthographicCamera.bottom c' == - OrthographicCamera.top c' /\
  (OrthographicCamera.right c' <= obstacleSpawnX - obstacleWidth / 2
   <-> width / height <= 21 # 32) /\
  (obstacleDespawnX + obstacleWidth / 2 <= OrthographicCamera.left c'
   <-> width / height <= 21 # 32) /\
  OrthographicCamera.right camera <= obstacleSpawnX - obstacleWidth / 2.
Proof.
  intros Hh Hw c'. subst c'. unfold resizeRenderer. cbn zeta.
  cbn [OrthographicCamera.top OrthographicCamera.bottom OrthographicCamera.left
       OrthographicCamera.right camera].
  set (r := width / height). clearbody r.
  unfold_constants.
  split; [qlra |]. split; [qlra |]. split; [qlra |]. split; [qlra |].
  split; [split; intros H; qlra |]. split; [split; intros H; qlra |].
  qlra.
Qed.

(** * The further properties at concrete runs *)


(** X5 at the first tap and a frame of a sixtieth of a second. *)
Lemma first_frame_spawns_witness :
  gameStarted (@initialState translations) = false /\
  0 <= 1 / 60 /\
  length (obstacles (beforeLoop (1 / 60) (1 / 2) (1 / 2)
                       (handleInput (@initialState translations)))) = 1%nat /\
  timeSinceLastSpawn (animate (1 / 60) (1 / 2) (1 / 2)
                        (handleInput (@initialState translations))) = 0.
Proof.
  assert (Hd : 0 <= 1 / 60) by qlra.
  assert (Hu : 0 <= 1 / 2 < 1) by (split; qlra).
  destruct (first_frame_spawns (W := translations) [] (1 / 60) (1 / 2) (1 / 2)
              eq_refl Hd Hu Hu) as (_ & _ & (o & Ho & _) & Ht).
  split; [reflexivity |]. split; [exact Hd |].
  split; [exact (f_equal (@length _) Ho) | exact Ht].
Defined.

(** X6 after the first tap and the frame that follows it. *)
Lemma pairs_keep_their_shape_witness :
  Forall drawsInRange tapAndFrame /\
  Forall pairGeometry (obstacles (run tapAndFrame (@initialState translations))).
Proof.
  assert (H : Forall drawsInRange tapAndFrame).
  { unfold tapAndFrame. constructor; [exact I |]. constructor; [| constructor].
    cbn [drawsInRange]. split; split; qlra. }
  split; [exact H |].
  exact (pairs_keep_their_shape (W := translations) tapAndFrame H).
Defined.

(** X7 after the first tap and the frame that follows it. *)
Lemma pairs_stay_on_track_witness :
  Forall steadyClock tapAndFrame /\
  Forall (fun o => -6 <= x_ (position (top o)) <= 6)
         (obstacles (run tapAndFrame (@initialState translations))) /\
  ascending (obstacles (run tapAndFrame (@initialState translations))).
Proof.
  assert (H : Forall steadyClock tapAndFrame).
  { unfold tapAndFrame. constructor; [exact I |]. constructor; [| constructor].
    cbn [steadyClock]. qlra. }
  split; [exact H |].
  exact (pairs_stay_on_track (W := translations) tapAndFrame H).
Defined.

(** X14 for a container 360 pixels wide and 640 high. *)
Lemma resize_keeps_the_view_witness :
  0 < 640 /\
  OrthographicCamera.right (resizeRenderer 360 640 camera)
  - OrthographicCamera.left (resizeRenderer 360 640 camera)
  == viewHeight * (360 / 640).
Proof.
  assert (Hh : 0 < 640) by lra.
  assert (Hw : 0 <= 360) by lra.
  split; [exact Hh |].
  exact (proj1 (proj2 (resize_keeps_the_view 360 640 camera Hh Hw))).
Defined.
